(** * Automata of tulip.transys.automata: a shallow embedding

    The development follows [tulip/transys/automata.py]:
    - the synchronous product of a finite transition system and a Buchi
      automaton ([_ts_ba_sync_prod]) with its nested label-conversion helper
      ([convert_ts2ba_label]);
    - the copy of a DFA to an NFA ([dfa2nfa]);
    - the acceptance check of Buchi automata ([is_accepted]);
    - the Rabin acceptance pairs ([RabinPairs]).

    Python exceptions are values of [exn]; code that raises while it mutates
    local objects runs in a state-and-exception monad which keeps the state
    reached when the exception was raised. *)

From stdpp Require Import base option list strings gmap.
From Stdlib Require Import Ascii ZArith Lia.

(* ================================================================== *)
(** * Python exceptions and the monad of mutable locals *)
(* ================================================================== *)

(** The exception classes the module raises, or lets escape from the
    built-in operations it calls. *)
Inductive exn : Type :=
| TypeError (msg : string)
| IndexError (msg : string)
| KeyError (key : string)
| ValueError (msg : string)
| AssertionError
| NotImplementedError
| Exception (msg : string).

#[global] Instance exn_eq_dec : EqDecision exn.
Proof. solve_decision. Defined.

(** The newline character of Python's ['\n']. *)
Definition nl : string := String "010"%char EmptyString.

(** A computation over mutable state [Σ]: it ends with a value or with a
    raised exception, and in both cases leaves a state behind. *)
Definition M (Σ A : Type) : Type := Σ → (exn + A) * Σ.

Definition ret {Σ A} (a : A) : M Σ A := λ σ, (inr a, σ).

Definition bind {Σ A B} (m : M Σ A) (k : A → M Σ B) : M Σ B :=
  λ σ, match m σ with
       | (inl e, σ') => (inl e, σ')
       | (inr a, σ') => k a σ'
       end.

Definition raise {Σ A} (e : exn) : M Σ A := λ σ, (inl e, σ).

Definition lift {Σ A} (r : exn + A) : M Σ A := λ σ, (r, σ).

Definition gets {Σ A} (f : Σ → A) : M Σ A := λ σ, (inr (f σ), σ).

Definition modify {Σ} (f : Σ → Σ) : M Σ unit := λ σ, (inr tt, f σ).

Declare Scope py_scope.
Delimit Scope py_scope with py.
Notation "x <~ m ;; k" := (bind m (λ x, k))
  (at level 100, m at next level, right associativity) : py_scope.
Notation "m ;;; k" := (bind m (λ _, k))
  (at level 100, right associativity) : py_scope.

(** [for x in l: body(x)] *)
Fixpoint for_each {Σ X} (l : list X) (body : X → M Σ unit) : M Σ unit :=
  match l with
  | [] => ret tt
  | x :: l' => bind (body x) (λ _, for_each l' body)
  end.

(** [for x in l: v = body(v, x)]: a loop whose body rebinds a local [v]. *)
Fixpoint fold_each {Σ X B} (l : list X) (v : B) (body : B → X → M Σ B)
  : M Σ B :=
  match l with
  | [] => ret v
  | x :: l' => bind (body v x) (λ v', fold_each l' v' body)
  end.

(** Hoare triples of the monad: a postcondition for the value returned and
    one for the exception raised. *)
Definition hoare {Σ A} (P : Σ → Prop) (m : M Σ A)
    (Qv : A → Σ → Prop) (Qe : exn → Σ → Prop) : Prop :=
  ∀ σ, P σ →
    match m σ with
    | (inr a, σ') => Qv a σ'
    | (inl e, σ') => Qe e σ'
    end.

(** A state invariant kept by a computation, however it ends. *)
Definition preserves {Σ A} (I : Σ → Prop) (m : M Σ A) : Prop :=
  hoare I m (λ _, I) (λ _, I).

(* ================================================================== *)
(** * MathSet *)
(* ================================================================== *)

Module MathSet.
Section ops.
Context {A : Type} `{EqDecision A}.

(** Modelled from the spec: [mathset.MathSet], the set container of the
    labeled-graph substrate, is not among the sources. It is a list
    without repetitions, in insertion order; [add] ignores an element
    that is present. *)
Definition add (x : A) (l : list A) : list A :=
  if decide (x ∈ l) then l else l ++ [x].

(** Modelled from the spec: [MathSet.add_from] and [|=], the union with
    the elements of an iterable. *)
Definition add_from (xs : list A) (l : list A) : list A :=
  foldl (λ acc x, add x acc) l xs.

(** Modelled from the spec: [MathSet.pop] removes and returns an
    arbitrary element; the choice is the index [i], reduced modulo the
    size. [None] on the empty set, where Python raises. *)
Definition pop (i : nat) (l : list A) : option (A * list A) :=
  match l with
  | [] => None
  | _ :: _ =>
      let k := i mod length l in
      (λ x, (x, delete k l)) <$> l !! k
  end.

End ops.
End MathSet.

(* ================================================================== *)
(** * The synchronous product TS * BA *)
(* ================================================================== *)

Section Product.
(** States of the transition system, states of the automaton, values of
    state labels and edge guards (elements of 2^AP), actions. *)
Context {S Q V Act : Type}.
Context `{EqDecision S, EqDecision Q, EqDecision Act}.

(** [str(state)] *)
Variable str : S → string.

(** The element [MathSet.pop] takes from the queue: an index computed
    from the queue and the visited set, left arbitrary. *)
Variable pick : list (S * Q) → list (S * Q) → nat.

(** A label: a Python dict from sub-label names to values. *)
Abbreviation label_dict := (gmap string V).
Abbreviation SQ := (S * Q)%type.

(** The operations [_ts_ba_sync_prod] consumes from its first operand, a
    [transys.FiniteTransitionSystem] (its class is not among the
    sources, so every method is a field whose behaviour is left open):
    - [fts_states_find s] is [fts.states.find(s)], a list of
      (state, label dict) pairs;
    - [fts_states_post s] is [fts.states.post(s)];
    - [fts_transitions_find s t] is
      [fts.transitions.find([s], to_states=[t], desired_label='any',
      as_dict=False)], a list of (from, to, sub-label values). *)
Record FiniteTransitionSystem : Type := {
  fts_name : string;
  fts_states_mutants : bool;
  fts_actions : list Act;
  fts_states_initial : list S;
  fts_states_find : S → list (S * label_dict);
  fts_states_post : S → list S;
  fts_transitions_find : S → S → list (S * S * list Act);
}.

(** The operations consumed from the second operand, a
    [BuchiAutomaton]: [ba_transitions_find q d] is
    [ba.transitions.find([q], desired_label=d)], a list of
    (from, to, sub-labels) triples. *)
Record BuchiAutomaton : Type := {
  ba_name : string;
  ba_states_mutants : bool;
  atomic_proposition_based : bool;
  ba_states : list Q;
  ba_states_initial : list Q;
  ba_states_accepting : list Q;
  ba_transitions_find : Q → label_dict → list (Q * Q * label_dict);
}.

(** A Python object passed as an operand: a transition system, a Buchi
    automaton, or anything else, of which only the type matters. *)
Inductive pyobj : Type :=
| PyFTS (fts : FiniteTransitionSystem)
| PyBA (ba : BuchiAutomaton)
| PyOther (type_name : string).

(** [str(type(x))] *)
Definition type_str (x : pyobj) : string :=
  match x with
  | PyFTS _ => "<class 'transys.FiniteTransitionSystem'>"
  | PyBA _ => "<class 'automata.BuchiAutomaton'>"
  | PyOther t => t
  end.

(** ** The product transition system under construction *)

(** Modelled from the spec: the product is a
    [transys.FiniteTransitionSystem], whose class is not among the
    sources; its containers are kept as lists. An edge carries the
    sub-label of the transition-system edge, if there is one. *)
Record ProdTS : Type := {
  p_name : string;
  p_mutable : bool;
  p_states : list SQ;
  p_initial : list SQ;
  p_labels : list (SQ * list Q);
  p_atomic_propositions : list Q;
  p_actions : list Act;
  p_transitions : list (SQ * SQ * option Act);
}.

(** Modelled from the spec: [states.add], add one state. *)
Definition states_add (x : SQ) (p : ProdTS) : ProdTS :=
  {| p_name := p_name p; p_mutable := p_mutable p;
     p_states := MathSet.add x (p_states p);
     p_initial := p_initial p; p_labels := p_labels p;
     p_atomic_propositions := p_atomic_propositions p;
     p_actions := p_actions p; p_transitions := p_transitions p |}.

(** Modelled from the spec: [states.initial.add], on the initial
    subset. *)
Definition states_initial_add (x : SQ) (p : ProdTS) : ProdTS :=
  {| p_name := p_name p; p_mutable := p_mutable p;
     p_states := p_states p;
     p_initial := MathSet.add x (p_initial p); p_labels := p_labels p;
     p_atomic_propositions := p_atomic_propositions p;
     p_actions := p_actions p; p_transitions := p_transitions p |}.

(** Modelled from the spec: [states.label], attach a label to a state,
    in place of the one it had. *)
Definition states_label (x : SQ) (l : list Q) (p : ProdTS) : ProdTS :=
  {| p_name := p_name p; p_mutable := p_mutable p;
     p_states := p_states p;
     p_initial := p_initial p;
     p_labels := filter (λ e, e.1 ≠ x) (p_labels p) ++ [(x, l)];
     p_atomic_propositions := p_atomic_propositions p;
     p_actions := p_actions p; p_transitions := p_transitions p |}.

(** Modelled from the spec: [transitions.add] and
    [transitions.add_labeled], add an unlabeled or a labeled edge. *)
Definition transitions_add_edge (e : SQ * SQ * option Act) (p : ProdTS)
  : ProdTS :=
  {| p_name := p_name p; p_mutable := p_mutable p;
     p_states := p_states p;
     p_initial := p_initial p; p_labels := p_labels p;
     p_atomic_propositions := p_atomic_propositions p;
     p_actions := p_actions p;
     p_transitions := MathSet.add e (p_transitions p) |}.

Definition transitions_add (x y : SQ) : ProdTS → ProdTS :=
  transitions_add_edge (x, y, None).

Definition transitions_add_labeled (x y : SQ) (a : Act) : ProdTS → ProdTS :=
  transitions_add_edge (x, y, Some a).

(** ** The locals of [_ts_ba_sync_prod] *)

Record frame : Type := {
  prodts : ProdTS;
  accepting_states_preimage : list SQ;
  queue : list SQ;
  visited : list SQ;
  next_sqs : list SQ;
}.

Definition on_prodts (f : ProdTS → ProdTS) (σ : frame) : frame :=
  {| prodts := f (prodts σ);
     accepting_states_preimage := accepting_states_preimage σ;
     queue := queue σ; visited := visited σ; next_sqs := next_sqs σ |}.

Definition on_preimage (f : list SQ → list SQ) (σ : frame) : frame :=
  {| prodts := prodts σ;
     accepting_states_preimage := f (accepting_states_preimage σ);
     queue := queue σ; visited := visited σ; next_sqs := next_sqs σ |}.

Definition on_queue (f : list SQ → list SQ) (σ : frame) : frame :=
  {| prodts := prodts σ;
     accepting_states_preimage := accepting_states_preimage σ;
     queue := f (queue σ); visited := visited σ; next_sqs := next_sqs σ |}.

Definition on_visited (f : list SQ → list SQ) (σ : frame) : frame :=
  {| prodts := prodts σ;
     accepting_states_preimage := accepting_states_preimage σ;
     queue := queue σ; visited := f (visited σ); next_sqs := next_sqs σ |}.

Definition on_next_sqs (f : list SQ → list SQ) (σ : frame) : frame :=
  {| prodts := prodts σ;
     accepting_states_preimage := accepting_states_preimage σ;
     queue := queue σ; visited := visited σ; next_sqs := f (next_sqs σ) |}.

Local Open Scope py_scope.

(** ** [convert_ts2ba_label] *)

(** Replace the ['ap'] key with ['in_alphabet']: the label of the first
    (state, label dict) pair becomes the letter looked for on the edges
    of the automaton. Indexing an empty list and a dict without ['ap']
    raise. *)
Definition convert_ts2ba_label (state_label_dict : list (S * label_dict))
  : exn + label_dict :=
  match state_label_dict with
  | [] => inl (IndexError "list index out of range")
  | (s0_, label_dict) :: _ =>
      match label_dict !! "ap" with
      | None => inl (KeyError "ap")
      | Some v => inr {[ "in_alphabet" := v ]}
      end
  end.

(** The message of the exception raised for a successor without label. *)
Definition no_ap_label_msg (next_s : S) : string :=
  "No AP label for FTS state: " +:+ str next_s +:+
  nl +:+ " Did you forget labeing it ?".

Definition not_fts_msg (x : pyobj) : string :=
  "transition_system not transys.FiniteTransitionSystem." +:+ nl +:+
  "Actual type passed: " +:+ type_str x.

Definition not_ba_msg (x : pyobj) : string :=
  "transition_system not transys.BuchiAutomaton." +:+ nl +:+
  "Actual type passed: " +:+ type_str x.

Definition not_ap_based_msg : string :=
  "Buchi automaton not stored as Atomic Proposition-based." +:+ nl +:+
  "                synchronous product with Finite Transition System" +:+
  nl +:+ "                is not well-defined.".

Section construction.
Variable fts : FiniteTransitionSystem.
Variable ba : BuchiAutomaton.

(** *** Initial states of the product *)

(** Body of [for (curq0, q, sublabels) in enabled_ba_trans]. *)
Definition seed_target (s0 : S) (tr : Q * Q * label_dict)
  : M frame unit :=
  let '(curq0, q, sublabels) := tr in
  let new_sq0 := (s0, q) in
  modify (on_prodts (states_add new_sq0)) ;;;
  modify (on_prodts (states_initial_add new_sq0)) ;;;
  modify (on_prodts (states_label new_sq0 [q])) ;;;
  if decide (q ∈ ba_states_accepting ba)
  then modify (on_preimage (MathSet.add new_sq0))
  else ret tt.

(** Body of [for q0 in q0s]; a blocked [q0] is skipped. *)
Definition seed_q0 (s0 : S) (Sigma_dict : label_dict) (q0 : Q)
  : M frame unit :=
  let enabled_ba_trans := ba_transitions_find ba q0 Sigma_dict in
  match enabled_ba_trans with
  | [] => ret tt
  | _ :: _ => for_each enabled_ba_trans (seed_target s0)
  end.

(** Body of [for s0 in s0s]. *)
Definition seed_s0 (s0 : S) : M frame unit :=
  let Ls0 := fts_states_find fts s0 in
  Sigma_dict <~ lift (convert_ts2ba_label Ls0) ;;
  for_each (ba_states_initial ba) (seed_q0 s0 Sigma_dict).

(** *** Visiting the reachable states *)

(** Body of [for (from_s, to_s, sublabel_values) in ts_enabled_trans]. *)
Definition add_product_edge (sq new_sq : SQ) (s next_s : S)
    (tr : S * S * list Act) : M frame unit :=
  let '(from_s, to_s, sublabel_values) := tr in
  if decide (from_s = s) then
    if decide (to_s = next_s) then
      match sublabel_values with
      | [] => modify (on_prodts (transitions_add sq new_sq))
      | a :: _ => modify (on_prodts (transitions_add_labeled sq new_sq a))
      end
    else raise AssertionError
  else raise AssertionError.

(** Body of [for (q, next_q, sublabels) in enabled_ba_trans]: the loop
    rebinds the local [q], which the enclosing loop reads again for
    the next successor. *)
Definition expand_target (sq : SQ) (s next_s : S)
    (tr : Q * Q * label_dict) : M frame Q :=
  let '(q, next_q, sublabels) := tr in
  let new_sq := (next_s, next_q) in
  modify (on_next_sqs (MathSet.add new_sq)) ;;;
  modify (on_prodts (states_add new_sq)) ;;;
  (if decide (next_q ∈ ba_states_accepting ba)
   then modify (on_preimage (MathSet.add new_sq))
   else ret tt) ;;;
  modify (on_prodts (states_label new_sq [next_q])) ;;;
  for_each (fts_transitions_find fts s next_s)
           (add_product_edge sq new_sq s next_s) ;;;
  ret q.

(** Body of [for next_s in next_ss]. *)
Definition expand_succ (sq : SQ) (s : S) (q : Q) (next_s : S)
  : M frame Q :=
  let Ls := fts_states_find fts next_s in
  match Ls with
  | [] => raise (Exception (no_ap_label_msg next_s))
  | _ :: _ =>
      Sigma_dict <~ lift (convert_ts2ba_label Ls) ;;
      let enabled_ba_trans := ba_transitions_find ba q Sigma_dict in
      fold_each enabled_ba_trans q (λ _, expand_target sq s next_s)
  end.

(** Body of [for next_sq in next_sqs]. (The set [new_sqs] of the
    source is filled here too and never read.) *)
Definition enqueue_new (next_sq : SQ) : M frame unit :=
  visited <~ gets visited ;;
  if decide (next_sq ∈ visited) then ret tt
  else modify (on_queue (MathSet.add next_sq)).

(** Body of [while queue], after [sq = queue.pop()]. *)
Definition expand (sq : SQ) : M frame unit :=
  modify (on_visited (MathSet.add sq)) ;;;
  let '(s, q) := sq in
  let next_ss := fts_states_post fts s in
  modify (on_next_sqs (λ _, [])) ;;;
  _ <~ fold_each next_ss q (expand_succ sq s) ;;
  next_sqs <~ gets next_sqs ;;
  for_each next_sqs enqueue_new.

(** [while queue: ...], run for at most [fuel] iterations. The value
    is [true] when the loop ended because the queue was empty. *)
Fixpoint while_queue (fuel : nat) : M frame bool :=
  λ σ,
    match MathSet.pop (pick (queue σ) (visited σ)) (queue σ) with
    | None => (inr true, σ)
    | Some (sq, rest) =>
        match fuel with
        | 0 => (inr false, σ)
        | Datatypes.S n =>
            (modify (on_queue (λ _, rest)) ;;;
             expand sq ;;;
             while_queue n) σ
        end
    end.

(** The product as created, before the initial states are added. *)
Definition new_prodts : ProdTS :=
  {| p_name := fts_name fts +:+ "*" +:+ ba_name ba;
     p_mutable := fts_states_mutants fts || ba_states_mutants ba;
     p_states := [];
     p_initial := [];
     p_labels := [];
     p_atomic_propositions := MathSet.add_from (ba_states ba) [];
     p_actions := MathSet.add_from (fts_actions fts) [];
     p_transitions := [] |}.

Definition new_frame : frame :=
  {| prodts := new_prodts; accepting_states_preimage := [];
     queue := []; visited := []; next_sqs := [] |}.

(** From the creation of the product to the end of the loop. *)
Definition build (fuel : nat) : M frame bool :=
  for_each (fts_states_initial fts) seed_s0 ;;;
  modify (λ σ, on_queue (λ _, p_initial (prodts σ)) σ) ;;;
  modify (on_visited (λ _, [])) ;;;
  while_queue fuel.
End construction.

(** What a call of [_ts_ba_sync_prod] comes to: the pair returned, an
    exception together with the locals as they were when it was raised
    ([None]: the product was not created yet), or the end of the fuel. *)
Inductive outcome : Type :=
| Return (product_ts : ProdTS) (persistent_states : list SQ)
| Raise (e : exn) (built : option frame)
| OutOfFuel (σ : frame).

Definition _ts_ba_sync_prod (fuel : nat)
    (transition_system buchi_automaton : pyobj) : outcome :=
  match transition_system with
  | PyFTS fts =>
      match buchi_automaton with
      | PyBA ba =>
          if atomic_proposition_based ba then
            match build fts ba fuel (new_frame fts ba) with
            | (inl e, σ) => Raise e (Some σ)
            | (inr true, σ) =>
                Return (prodts σ) (accepting_states_preimage σ)
            | (inr false, σ) => OutOfFuel σ
            end
          else Raise (Exception not_ap_based_msg) None
      | _ => Raise (TypeError (not_ba_msg buchi_automaton)) None
      end
  | _ => Raise (TypeError (not_fts_msg transition_system)) None
  end.

(** The call was cut short by the end of the fuel. *)
Definition out_of_fuel (o : outcome) : bool :=
  match o with OutOfFuel _ => true | _ => false end.

(** The product and the accepting preimage as far as a call built them:
    the pair returned, or the two locals when the call was cut short. *)
Definition built_product (o : outcome) : option (ProdTS * list SQ) :=
  match o with
  | Return product_ts persistent_states =>
      Some (product_ts, persistent_states)
  | Raise _ (Some σ) | OutOfFuel σ =>
      Some (prodts σ, accepting_states_preimage σ)
  | Raise _ None => None
  end.

(** [isinstance(x, transys.FiniteTransitionSystem)] *)
Definition is_fts (x : pyobj) : bool :=
  match x with PyFTS _ => true | _ => false end.

(** [isinstance(x, BuchiAutomaton)] *)
Definition is_ba (x : pyobj) : bool :=
  match x with PyBA _ => true | _ => false end.

(** [x.atomic_proposition_based], for an automaton. *)
Definition is_ap_based (x : pyobj) : bool :=
  match x with PyBA ba => atomic_proposition_based ba | _ => false end.

(** The exceptions which the specification names TypeMismatch: a
    [TypeError] for an operand of the wrong class, and the exception for
    an automaton that is not based on atomic propositions. *)
Definition TypeMismatch (e : exn) : Prop :=
  (∃ msg, e = TypeError msg) ∨ e = Exception not_ap_based_msg.

(** ** Labels, and the states the product is to reach *)

(** A state without label, as the source tests it: [states.find] returns
    no pair for it. *)
Definition unlabeled (fts : FiniteTransitionSystem) (s : S) : Prop :=
  fts_states_find fts s = [].

(** The value under ['ap'] in the label of the first pair found. *)
Definition ap_label (fts : FiniteTransitionSystem) (s : S) : option V :=
  match fts_states_find fts s with
  | [] => None
  | (_, label_dict) :: _ => label_dict !! "ap"
  end.

(** The states the automaton may move to from [q] on the letter [v]. *)
Definition ba_targets (ba : BuchiAutomaton) (q : Q) (v : V) : list Q :=
  (λ tr, tr.1.2) <$> ba_transitions_find ba q {[ "in_alphabet" := v ]}.

(** A product state (s0, q): s0 is initial and the automaton moves to q
    from an initial state on the label of s0. *)
Definition product_initial (fts : FiniteTransitionSystem)
    (ba : BuchiAutomaton) (sq : SQ) : Prop :=
  sq.1 ∈ fts_states_initial fts ∧
  ∃ v q0, ap_label fts sq.1 = Some v ∧
          q0 ∈ ba_states_initial ba ∧ sq.2 ∈ ba_targets ba q0 v.

(** A step of the product: the system moves to a successor and the
    automaton moves on the label of that successor. *)
Definition product_step (fts : FiniteTransitionSystem)
    (ba : BuchiAutomaton) (sq sq' : SQ) : Prop :=
  sq'.1 ∈ fts_states_post fts sq.1 ∧
  ∃ v, ap_label fts sq'.1 = Some v ∧ sq'.2 ∈ ba_targets ba sq.2 v.

Inductive product_reachable (fts : FiniteTransitionSystem)
    (ba : BuchiAutomaton) : SQ → Prop :=
| reachable_initial sq :
    product_initial fts ba sq → product_reachable fts ba sq
| reachable_step sq sq' :
    product_reachable fts ba sq → product_step fts ba sq sq' →
    product_reachable fts ba sq'.

(** What the construction relies on in its operands, [ts_states] being
    the states of the transition system:
    - a label that is found carries the key ['ap'];
    - [transitions.find] returns edges between the states asked for, and
      edges that leave the state asked for;
    - initial states and successors are states of the system, and the
      edges of the automaton lead to its states. *)
Record well_formed_operands (fts : FiniteTransitionSystem)
    (ba : BuchiAutomaton) (ts_states : list S) : Prop := {
  wf_labels : ∀ s, unlabeled fts s ∨ is_Some (ap_label fts s);
  wf_edges : ∀ s t tr,
    tr ∈ fts_transitions_find fts s t → tr.1.1 = s ∧ tr.1.2 = t;
  wf_from : ∀ q d tr, tr ∈ ba_transitions_find ba q d → tr.1.1 = q;
  wf_initial : ∀ s, s ∈ fts_states_initial fts → s ∈ ts_states;
  wf_post : ∀ s s', s' ∈ fts_states_post fts s → s' ∈ ts_states;
  wf_targets : ∀ q d tr,
    tr ∈ ba_transitions_find ba q d → tr.1.2 ∈ ba_states ba;
}.

(** The invariant of [while queue]: the queue and the visited set are
    disjoint sets of reachable product states; they hold every initial
    product state and every successor of a visited state; the successors
    of the visited states in the transition system are labeled; the
    states of the product are the queued and the visited ones, and its
    initial states are the initial product states. *)
Record search_invariant (fts : FiniteTransitionSystem)
    (ba : BuchiAutomaton) (σ : frame) : Prop := {
  inv_queue_NoDup : NoDup (queue σ);
  inv_visited_NoDup : NoDup (visited σ);
  inv_disjoint : ∀ x, x ∈ queue σ → x ∉ visited σ;
  inv_reachable :
    ∀ x, x ∈ queue σ ∨ x ∈ visited σ → product_reachable fts ba x;
  inv_initial :
    ∀ x, product_initial fts ba x → x ∈ queue σ ∨ x ∈ visited σ;
  inv_closed :
    ∀ x y, x ∈ visited σ → product_step fts ba x y →
           y ∈ queue σ ∨ y ∈ visited σ;
  inv_labeled :
    ∀ x s', x ∈ visited σ → s' ∈ fts_states_post fts x.1 →
            ¬ unlabeled fts s';
  inv_states_NoDup : NoDup (p_states (prodts σ));
  inv_states :
    ∀ x, x ∈ p_states (prodts σ) ↔ x ∈ queue σ ∨ x ∈ visited σ;
  inv_product_initial :
    ∀ x, x ∈ p_initial (prodts σ) ↔ product_initial fts ba x;
}.

(** The exception for a successor without label, raised while a visited
    product state is expanded. *)
Definition missing_label_raised (fts : FiniteTransitionSystem)
    (ba : BuchiAutomaton) (e : exn) (σ : frame) : Prop :=
  ∃ sq next_s,
    e = Exception (no_ap_label_msg next_s) ∧
    unlabeled fts next_s ∧
    sq ∈ visited σ ∧ product_reachable fts ba sq ∧
    next_s ∈ fts_states_post fts sq.1.

(** The initial states of the product under construction are those
    that satisfy [P]. *)
Definition initial_are (P : SQ → Prop) (σ : frame) : Prop :=
  ∀ y, y ∈ p_initial (prodts σ) ↔ P y.

(** The loop over the initial states leaves the queue and the visited set
    alone, adds no state twice, and adds the same states to the product
    and to its initial states. *)
Definition seeding_frame (qu vi : list SQ) (σ : frame) : Prop :=
  NoDup (p_initial (prodts σ)) ∧ queue σ = qu ∧ visited σ = vi ∧
  NoDup (p_states (prodts σ)) ∧
  ∀ y, y ∈ p_states (prodts σ) ↔ y ∈ p_initial (prodts σ).

(** The control part of the locals while a state is expanded: the queue,
    the visited set, and the successors collected so far. *)
Definition control (qu vi : list SQ) (P : SQ → Prop) (σ : frame) : Prop :=
  queue σ = qu ∧ visited σ = vi ∧ ∀ y, y ∈ next_sqs σ ↔ P y.

(** The locals after the expansion of [sq], popped from a queue of which
    [rest] is left, with [vi] visited before. *)
Definition expanded (fts : FiniteTransitionSystem) (ba : BuchiAutomaton)
    (sq : SQ) (rest vi : list SQ) (σ : frame) : Prop :=
  visited σ = MathSet.add sq vi ∧
  NoDup (queue σ) ∧
  (∀ y, y ∈ queue σ ↔
        y ∈ rest ∨ (product_step fts ba sq y ∧ y ∉ MathSet.add sq vi)) ∧
  (∀ y, y ∈ next_sqs σ ↔ product_step fts ba sq y) ∧
  ∀ s', s' ∈ fts_states_post fts sq.1 → ¬ unlabeled fts s'.

(** While a state is expanded, the states of the product are those it
    had before, [st0], and the successors collected so far; its initial
    states stay as they are. *)
Definition states_frame (st0 ini : list SQ) (σ : frame) : Prop :=
  NoDup (p_states (prodts σ)) ∧
  p_initial (prodts σ) = ini ∧
  ∀ y, y ∈ p_states (prodts σ) ↔ y ∈ st0 ∨ y ∈ next_sqs σ.

(** An exception of class [Exception] is the one for a successor without
    label of a visited state. *)
Definition exception_origin (fts : FiniteTransitionSystem) (e : exn)
    (σ : frame) : Prop :=
  ∀ msg, e = Exception msg →
    ∃ sq next_s,
      msg = no_ap_label_msg next_s ∧ unlabeled fts next_s ∧
      sq ∈ visited σ ∧ next_s ∈ fts_states_post fts sq.1.

(** The law of the accepting preimage on the locals: it holds the states
    of the product whose automaton component is accepting. *)
Definition preimage_law (ba : BuchiAutomaton) (σ : frame) : Prop :=
  ∀ sq, sq ∈ accepting_states_preimage σ ↔
        sq ∈ p_states (prodts σ) ∧ sq.2 ∈ ba_states_accepting ba.
End Product.

(* ================================================================== *)
(** * A list-backed store for operands *)
(* ================================================================== *)

Module ListStore.
Section store.
Context {S Q V Act : Type}.
Context `{EqDecision S, EqDecision Q}.

(** Modelled from the spec: the labeled-graph substrate
    ([labeled_graphs.LabeledStateDiGraph]) is not among the sources. Its
    state store keeps the label mapping attached to each labeled state;
    [states.find(s)] lists the (state, label) pairs of [s], none for a
    state that was never labeled. *)
Definition states_find (labels : list (S * gmap string V)) (s : S)
  : list (S * gmap string V) :=
  filter (λ e, e.1 = s) labels.

(** Modelled from the spec: the successor query [post(state)], the set of
    targets of the edges that leave the state. *)
Definition states_post (edges : list (S * S * list Act)) (s : S) : list S :=
  MathSet.add_from ((λ e, e.1.2) <$> filter (λ e, e.1.1 = s) edges) [].

(** Modelled from the spec: [transitions.find] from one source state,
    filtered by one destination state, any label. *)
Definition transitions_find_to (edges : list (S * S * list Act)) (s t : S)
  : list (S * S * list Act) :=
  filter (λ e, e.1.1 = s ∧ e.1.2 = t) edges.

(** Modelled from the spec: [transitions.find] from one source state,
    filtered by a desired label. Which labels an edge label satisfies is
    the rule [label_is_desired edge_label desired_label] of the store. *)
Definition transitions_find_label
    (label_is_desired : gmap string V → gmap string V → bool)
    (edges : list (Q * Q * gmap string V)) (q : Q) (desired : gmap string V)
  : list (Q * Q * gmap string V) :=
  filter (λ e, e.1.1 = q ∧ label_is_desired e.2 desired = true) edges.

(** A transition system given by its initial states, the labels of its
    states and its edges. *)
Definition list_fts (name : string) (initial : list S)
    (labels : list (S * gmap string V)) (edges : list (S * S * list Act))
  : FiniteTransitionSystem :=
  {| fts_name := name;
     fts_states_mutants := false;
     fts_actions := [];
     fts_states_initial := initial;
     fts_states_find := states_find labels;
     fts_states_post := states_post edges;
     fts_transitions_find := transitions_find_to edges |}.

(** A Buchi automaton given by its states and its edges with their
    guards. *)
Definition list_ba (label_is_desired : gmap string V → gmap string V → bool)
    (name : string) (ap_based : bool) (states initial accepting : list Q)
    (edges : list (Q * Q * V)) : BuchiAutomaton (Q:=Q) (V:=V) :=
  {| ba_name := name;
     ba_states_mutants := false;
     atomic_proposition_based := ap_based;
     ba_states := states;
     ba_states_initial := initial;
     ba_states_accepting := accepting;
     ba_transitions_find :=
       transitions_find_label label_is_desired
         ((λ e, (e.1, {[ "in_alphabet" := e.2 ]})) <$> edges) |}.
End store.

(** The two readings of a desired label: the edge carries exactly that
    label; or every sub-label of the edge is a guard contained in the
    desired value. *)
Definition label_equal {V} `{EqDecision V} (l d : gmap string V) : bool :=
  bool_decide (l = d).

Definition guard_subseteq (l d : gmap string (gset string)) : bool :=
  forallb (λ e, match d !! e.1 with
                | Some v => bool_decide (e.2 ⊆ v)
                | None => false
                end) (map_to_list l).
End ListStore.

(* ================================================================== *)
(** * The scenario of two states *)
(* ================================================================== *)

Module Scenario.
(** The transition system: s0 (initial, labeled {p}) and s1 (labeled {}),
    with the edges s0 -> s1 and s1 -> s0. *)
Definition ts : FiniteTransitionSystem (S:=string) (V:=gset string) (Act:=string) :=
  ListStore.list_fts "ts" ["s0"]
    [("s0", {[ "ap" := {[ "p" ]} ]}); ("s1", {[ "ap" := ∅ ]})]
    [("s0", "s1", []); ("s1", "s0", [])].

(** The automaton: q0 (initial) and q1 (accepting), with the edges
    q0 -{p}-> q1, q1 -{}-> q0, q0 -{}-> q0 and q1 -{p}-> q1. *)
Definition ba_edges : list (string * string * gset string) :=
  [("q0", "q1", {[ "p" ]}); ("q1", "q0", ∅);
   ("q0", "q0", ∅); ("q1", "q1", {[ "p" ]})].

Definition ba : BuchiAutomaton (Q:=string) (V:=gset string) :=
  ListStore.list_ba ListStore.label_equal "ba" true
    ["q0"; "q1"] ["q0"] ["q1"] ba_edges.

(** The same automaton over a store that reads a guard as satisfied by
    every valuation which contains it. *)
Definition ba_subset_guards : BuchiAutomaton (Q:=string) (V:=gset string) :=
  ListStore.list_ba ListStore.guard_subseteq "ba" true
    ["q0"; "q1"] ["q0"] ["q1"] ba_edges.

Definition str (s : string) : string := s.

(** Variants of the transition system: s1 without label; and s0, the
    initial state, without label. *)
Definition ts_unlabeled_successor
  : FiniteTransitionSystem (S:=string) (V:=gset string) (Act:=string) :=
  ListStore.list_fts "ts" ["s0"]
    [("s0", {[ "ap" := {[ "p" ]} ]})]
    [("s0", "s1", []); ("s1", "s0", [])].

Definition ts_unlabeled_initial
  : FiniteTransitionSystem (S:=string) (V:=gset string) (Act:=string) :=
  ListStore.list_fts "ts" ["s0"]
    [("s1", {[ "ap" := ∅ ]})]
    [("s0", "s1", []); ("s1", "s0", [])].
End Scenario.

(* ================================================================== *)
(** * Finite-word automata as objects: [dfa2nfa] *)
(* ================================================================== *)

Module Objects.
Section objects.
Context {St L : Type}.

(** References to objects. *)
Abbreviation loc := positive.

(** The [transitions] object of an automaton: its edges and the flag
    that enforces determinism when edges are added. *)
Record Transitions : Type := {
  edges : list (St * St * L);
  _deterministic : bool;
}.

(** An automaton object. Its [transitions] attribute refers to an object
    of its own. *)
Record Automaton : Type := {
  name : string;
  states : list St;
  states_initial : list St;
  states_accepting : list St;
  alphabet : list L;
  is_atomic_proposition_based : bool;
  transitions : loc;
  automaton_type : string;
}.

Record heap : Type := {
  automata : gmap loc Automaton;
  transitions_objects : gmap loc Transitions;
}.

Definition set_deterministic (b : bool) (t : Transitions) : Transitions :=
  {| edges := edges t; _deterministic := b |}.

Definition set_automaton_type (ty : string) (a : Automaton) : Automaton :=
  {| name := name a; states := states a;
     states_initial := states_initial a;
     states_accepting := states_accepting a;
     alphabet := alphabet a;
     is_atomic_proposition_based := is_atomic_proposition_based a;
     transitions := transitions a;
     automaton_type := ty |}.

Definition set_transitions (t : loc) (a : Automaton) : Automaton :=
  {| name := name a; states := states a;
     states_initial := states_initial a;
     states_accepting := states_accepting a;
     alphabet := alphabet a;
     is_atomic_proposition_based := is_atomic_proposition_based a;
     transitions := t;
     automaton_type := automaton_type a |}.

(** Modelled from the spec: [LabeledStateDiGraph.copy] is not among the
    sources; it produces an independent copy, so the automaton object and
    the [transitions] object it refers to are both allocated afresh with
    the contents of the originals. [None] stands for a reference to no
    object, which Python does not have. *)
Definition copy (h : heap) (self : loc) : option (loc * heap) :=
  a ← automata h !! self;
  t ← transitions_objects h !! transitions a;
  let t' := fresh (dom (transitions_objects h)) in
  let a' := fresh (dom (automata h)) in
  Some (a', {| automata := <[a' := set_transitions t' a]> (automata h);
               transitions_objects := <[t' := t]> (transitions_objects h) |}).

(** [obj.transitions._deterministic = b] *)
Definition store_deterministic (h : heap) (obj : loc) (b : bool)
  : option heap :=
  a ← automata h !! obj;
  t ← transitions_objects h !! transitions a;
  Some {| automata := automata h;
          transitions_objects :=
            <[transitions a := set_deterministic b t]>
              (transitions_objects h) |}.

(** [obj.automaton_type = ty] *)
Definition store_automaton_type (h : heap) (obj : loc) (ty : string)
  : option heap :=
  a ← automata h !! obj;
  Some {| automata := <[obj := set_automaton_type ty a]> (automata h);
          transitions_objects := transitions_objects h |}.

(** Copy DFA to an NFA, so remove determinism restriction. *)
Definition dfa2nfa (h : heap) (dfa : loc) : option (loc * heap) :=
  '(nfa, h1) ← copy h dfa;
  h2 ← store_deterministic h1 nfa false;
  h3 ← store_automaton_type h2 nfa "Non-Deterministic Finite Automaton";
  Some (nfa, h3).

(** What an automaton is made of, read through its reference. *)
Definition edges_of (h : heap) (obj : loc) : option (list (St * St * L)) :=
  a ← automata h !! obj;
  edges <$> transitions_objects h !! transitions a.

Definition deterministic_of (h : heap) (obj : loc) : option bool :=
  a ← automata h !! obj;
  _deterministic <$> transitions_objects h !! transitions a.

(** The heap holds the objects its references point to, and no two
    automata share their [transitions] object. *)
Definition well_formed (h : heap) : Prop :=
  (∀ l a, automata h !! l = Some a →
     is_Some (transitions_objects h !! transitions a)) ∧
  (∀ l1 l2 a1 a2, automata h !! l1 = Some a1 → automata h !! l2 = Some a2 →
     transitions a1 = transitions a2 → l1 = l2).
End objects.

(** A heap with one DFA of two states and one edge. *)
Definition one_dfa : Automaton (St:=string) :=
  {| name := "dfa"; states := ["a"; "b"]; states_initial := ["a"];
     states_accepting := ["b"]; alphabet := ["x"];
     is_atomic_proposition_based := false; transitions := 1%positive;
     automaton_type := "Deterministic Finite Automaton" |}.

Definition one_dfa_heap : heap (St:=string) (L:=string) :=
  {| automata := {[ 1%positive := one_dfa ]};
     transitions_objects :=
       {[ 1%positive := {| edges := [("a", "b", "x")];
                           _deterministic := true |} ]} |}.
End Objects.

(* ================================================================== *)
(** * Acceptance of infinite words by a Buchi automaton *)
(* ================================================================== *)

Module Buchi.
Section acceptance.
Context {Q V : Type}.

(** What a Python function returns: [None], or a truth value. *)
Inductive pyresult : Type :=
| PyNone
| PyBool (b : bool).

(** Truth value of a result in a condition. *)
Definition truthy (r : pyresult) : bool :=
  match r with
  | PyNone => false
  | PyBool b => b
  end.

(** [BuchiAutomaton.is_accepted]: the body of the method is its docstring
    alone, so the call returns [None] whatever the word. *)
Definition is_accepted (self : BuchiAutomaton (Q:=Q) (V:=V))
    (prefix suffix : list V) : pyresult :=
  PyNone.

(** The infinite word prefix . suffix^omega, defined when the suffix is
    not empty. *)
Definition letter (prefix suffix : list V) (i : nat) : option V :=
  if decide (i < length prefix) then prefix !! i
  else suffix !! ((i - length prefix) mod length suffix).

(** A run of the automaton on the word: it starts in an initial state and
    each step follows an edge found for the letter read. *)
Definition is_run (self : BuchiAutomaton (Q:=Q) (V:=V))
    (prefix suffix : list V) (ρ : nat → Q) : Prop :=
  ρ 0 ∈ ba_states_initial self ∧
  ∀ i, ∃ a tr,
    letter prefix suffix i = Some a ∧
    tr ∈ ba_transitions_find self (ρ i) {[ "in_alphabet" := a ]} ∧
    tr.1.2 = ρ (Datatypes.S i).

(** The acceptance condition in the words of the specification: some run
    visits the accepting set infinitely often. *)
Definition accepts (self : BuchiAutomaton (Q:=Q) (V:=V))
    (prefix suffix : list V) : Prop :=
  ∃ ρ, is_run self prefix suffix ρ ∧
       ∀ n, ∃ m, n ≤ m ∧ ρ m ∈ ba_states_accepting self.
End acceptance.

(** One accepting state with a loop on the letter {a}. *)
Definition loop_ba : BuchiAutomaton (Q:=string) (V:=gset string) :=
  ListStore.list_ba ListStore.label_equal "loop" true
    ["q0"] ["q0"] ["q0"] [("q0", "q0", {[ "a" ]})].
End Buchi.

(* ================================================================== *)
(** * Rabin acceptance pairs *)
(* ================================================================== *)

Module RabinPairs.
Section pairs.
Context {St : Type} `{Countable St}.

(** The exception of a [SubSet] that is given an element outside its
    superset. *)
Definition InvalidState : exn :=
  Exception "All new elements should already be in the superset.".

(** The exception of [list.remove] for a value that is not in the list. *)
Definition PairNotFound : exn :=
  ValueError "list.remove(x): x not in list".

(** The exception [add_states] raises in place of an [IndexError]. *)
Definition NoSuchPair : exn :=
  Exception ("A pair with pair_index doesn't exist." +:+ nl +:+
             "Create a new one by callign .add.").

(** Modelled from the spec: [mathset.SubSet] is not among the sources.
    [SubSet.add_from] and [|=] extend the set with the new elements when
    all of them belong to the superset, and fail otherwise, leaving the
    set as it was. *)
Definition SubSet_add_from (superset set : gset St) (new_elements : list St)
  : exn + gset St :=
  if decide (Forall (λ x, x ∈ superset) new_elements)
  then inr (set ∪ list_to_set new_elements)
  else inl InvalidState.

(** The object: the states of the automaton it is bound to, and the list
    of (good, bad) pairs. *)
Record RabinPairs : Type := {
  _states : gset St;
  _pairs : list (gset St * gset St);
}.

Definition __init__ (automaton_states : gset St) : RabinPairs :=
  {| _states := automaton_states; _pairs := [] |}.

Definition on_pairs (f : list (gset St * gset St) → list (gset St * gset St))
    (self : RabinPairs) : RabinPairs :=
  {| _states := _states self; _pairs := f (_pairs self) |}.

(** [SubSet(self._states)] followed by [|= elements]. *)
Definition new_SubSet (elements : list St) : M RabinPairs (gset St) :=
  bind (gets _states) (λ superset,
  lift (SubSet_add_from superset ∅ elements)).

(** Add new acceptance pair (L, U). *)
Definition add (good_states bad_states : list St) : M RabinPairs unit :=
  (good_set <~ new_SubSet good_states ;;
   bad_set <~ new_SubSet bad_states ;;
   modify (on_pairs (λ l, l ++ [(good_set, bad_set)])))%py.

(** [list.remove(x)]: delete the first element equal to [x]. *)
Fixpoint list_remove {A} `{EqDecision A} (x : A) (l : list A)
  : option (list A) :=
  match l with
  | [] => None
  | y :: l' =>
      if decide (y = x) then Some l' else (y ::.) <$> list_remove x l'
  end.

(** Delete pair (L, U) of good-bad sets of states. *)
Definition remove (good_states bad_states : list St) : M RabinPairs unit :=
  (good_set <~ new_SubSet good_states ;;
   bad_set <~ new_SubSet bad_states ;;
   pairs <~ gets _pairs ;;
   match list_remove (good_set, bad_set) pairs with
   | None => raise PairNotFound
   | Some pairs' => modify (on_pairs (λ _, pairs'))
   end)%py.

(** Position of [l[i]] for a Python index: a negative index counts from
    the end. *)
Definition py_index (i : Z) (n : nat) : option nat :=
  if decide (0 ≤ i < Z.of_nat n)%Z then Some (Z.to_nat i)
  else if decide (- Z.of_nat n ≤ i < 0)%Z then Some (Z.to_nat (Z.of_nat n + i))
  else None.

(** [self._pairs[index]] *)
Definition getitem (index : Z) : M RabinPairs (nat * (gset St * gset St)) :=
  bind (gets _pairs) (λ pairs,
  match py_index index (length pairs) with
  | None => raise (IndexError "list index out of range")
  | Some k =>
      match pairs !! k with
      | None => raise (IndexError "list index out of range")
      | Some p => ret (k, p)
      end
  end).

(** [try: m except IndexError: handler] *)
Definition except_IndexError {A} (m handler : M RabinPairs A)
  : M RabinPairs A :=
  λ σ, match m σ with
       | (inl (IndexError _), σ') => handler σ'
       | r => r
       end.

(** [add_states]: the sets of the pair are objects which are extended in
    place, the good one first. *)
Definition add_states (pair_index : Z) (good_states bad_states : list St)
  : M RabinPairs unit :=
  except_IndexError
    (kp <~ getitem pair_index ;;
     superset <~ gets _states ;;
     good' <~ lift (SubSet_add_from superset kp.2.1 good_states) ;;
     modify (on_pairs (λ l, <[kp.1 := (good', kp.2.2)]> l)) ;;;
     kp <~ getitem pair_index ;;
     bad' <~ lift (SubSet_add_from superset kp.2.2 bad_states) ;;
     modify (on_pairs (λ l, <[kp.1 := (kp.2.1, bad')]> l)))%py
    (raise NoSuchPair).

(** Return set L of "good" states for this pair. *)
Definition good (index : Z) : M RabinPairs (gset St) :=
  (kp <~ getitem index ;; ret kp.2.1)%py.

(** Return set U of "bad" states for this pair. *)
Definition bad (index : Z) : M RabinPairs (gset St) :=
  (kp <~ getitem index ;; ret kp.2.2)%py.

(** The calls that change the pairs. *)
Inductive call : Type :=
| Add (good_states bad_states : list St)
| Remove (good_states bad_states : list St)
| AddStates (pair_index : Z) (good_states bad_states : list St).

Definition run_call (c : call) : M RabinPairs unit :=
  match c with
  | Add g b => add g b
  | Remove g b => remove g b
  | AddStates i g b => add_states i g b
  end.

(** A sequence of calls, each one on the object the one before left,
    whether it returned or raised. *)
Definition run_calls (cs : list call) (self : RabinPairs) : RabinPairs :=
  foldl (λ σ c, (run_call c σ).2) self cs.

(** Every good and bad set is within the states the object is bound to. *)
Definition pairs_within_states (self : RabinPairs) : Prop :=
  ∀ p, p ∈ _pairs self → p.1 ⊆ _states self ∧ p.2 ⊆ _states self.
End pairs.
End RabinPairs.

Set Default Proof Using "Type".

(* ================================================================== *)
(** * Rules of the monad *)
(* ================================================================== *)

Section MonadRules.
Context {Σ : Type}.
Implicit Types (P I : Σ → Prop) (Qe : exn → Σ → Prop).

Lemma hoare_ret {A} P (a : A) (Qv : A → Σ → Prop) Qe :
  (∀ σ, P σ → Qv a σ) → hoare P (ret a) Qv Qe.
Proof. intros HP σ Hσ. by apply HP. Qed.

Lemma hoare_raise {A} P (e : exn) (Qv : A → Σ → Prop) Qe :
  (∀ σ, P σ → Qe e σ) → hoare P (raise e) Qv Qe.
Proof. intros HP σ Hσ. by apply HP. Qed.

Lemma hoare_lift {A} P (r : exn + A) (Qv : A → Σ → Prop) Qe :
  (∀ σ, P σ → match r with inl e => Qe e σ | inr a => Qv a σ end) →
  hoare P (lift r) Qv Qe.
Proof. intros HP σ Hσ. unfold lift. specialize (HP σ Hσ). by destruct r. Qed.

Lemma hoare_gets {A} P (f : Σ → A) (Qv : A → Σ → Prop) Qe :
  (∀ σ, P σ → Qv (f σ) σ) → hoare P (gets f) Qv Qe.
Proof. intros HP σ Hσ. by apply HP. Qed.

Lemma hoare_modify P (f : Σ → Σ) (Qv : unit → Σ → Prop) Qe :
  (∀ σ, P σ → Qv tt (f σ)) → hoare P (modify f) Qv Qe.
Proof. intros HP σ Hσ. by apply HP. Qed.

Lemma hoare_bind {A B} P (m : M Σ A) (k : A → M Σ B)
    (R : A → Σ → Prop) (Qv : B → Σ → Prop) Qe :
  hoare P m R Qe → (∀ a, hoare (R a) (k a) Qv Qe) →
  hoare P (bind m k) Qv Qe.
Proof.
  intros Hm Hk σ Hσ. unfold bind. specialize (Hm σ Hσ).
  destruct (m σ) as [[e|a] σ']; [done|]. by apply Hk.
Qed.

Lemma hoare_conseq {A} P P' (m : M Σ A) (Qv Qv' : A → Σ → Prop) Qe Qe' :
  hoare P' m Qv' Qe' →
  (∀ σ, P σ → P' σ) → (∀ a σ, Qv' a σ → Qv a σ) → (∀ e σ, Qe' e σ → Qe e σ) →
  hoare P m Qv Qe.
Proof.
  intros Hm HP HQv HQe σ Hσ. specialize (Hm σ (HP σ Hσ)).
  destruct (m σ) as [[e|a] σ']; auto.
Qed.

Lemma hoare_for_each {X} I (l : list X) (body : X → M Σ unit) Qe :
  (∀ x, x ∈ l → hoare I (body x) (λ _, I) Qe) →
  hoare I (for_each l body) (λ _, I) Qe.
Proof.
  induction l as [|x l IH]; intros Hbody; simpl.
  - by apply hoare_ret.
  - eapply hoare_bind; [apply Hbody; left|].
    intros ?. apply IH. intros y Hy. apply Hbody. by right.
Qed.

Lemma hoare_fold_each {X B} I (l : list X) (v : B) (body : B → X → M Σ B) Qe :
  (∀ v' x, x ∈ l → hoare I (body v' x) (λ _, I) Qe) →
  hoare I (fold_each l v body) (λ _, I) Qe.
Proof.
  revert v. induction l as [|x l IH]; intros v Hbody; simpl.
  - by apply hoare_ret.
  - eapply hoare_bind; [apply Hbody; left|].
    intros v'. apply IH. intros v'' y Hy. apply Hbody. by right.
Qed.

(** The rules for an invariant. *)
Lemma preserves_ret {A} I (a : A) : preserves I (ret a : M Σ A).
Proof. by apply hoare_ret. Qed.

Lemma preserves_raise {A} I (e : exn) : preserves I (raise e : M Σ A).
Proof. by apply hoare_raise. Qed.

Lemma preserves_lift {A} I (r : exn + A) : preserves I (lift r : M Σ A).
Proof. apply hoare_lift. intros σ Hσ. by destruct r. Qed.

Lemma preserves_gets {A} I (f : Σ → A) : preserves I (gets f).
Proof. by apply hoare_gets. Qed.

Lemma preserves_modify I (f : Σ → Σ) :
  (∀ σ, I σ → I (f σ)) → preserves I (modify f).
Proof. intros Hf. by apply hoare_modify. Qed.

Lemma preserves_bind {A B} I (m : M Σ A) (k : A → M Σ B) :
  preserves I m → (∀ a, preserves I (k a)) → preserves I (bind m k).
Proof. intros Hm Hk. eapply hoare_bind; [apply Hm|apply Hk]. Qed.

Lemma preserves_for_each {X} I (l : list X) (body : X → M Σ unit) :
  (∀ x, x ∈ l → preserves I (body x)) → preserves I (for_each l body).
Proof. apply hoare_for_each. Qed.

Lemma preserves_fold_each {X B} I (l : list X) (v : B) (body : B → X → M Σ B) :
  (∀ v' x, x ∈ l → preserves I (body v' x)) →
  preserves I (fold_each l v body).
Proof. apply hoare_fold_each. Qed.

(** Loops over a list that is cut in two. *)
Lemma for_each_app {X} (l1 l2 : list X) (body : X → M Σ unit) (σ : Σ) :
  for_each (l1 ++ l2) body σ =
  bind (for_each l1 body) (λ _, for_each l2 body) σ.
Proof.
  revert σ. induction l1 as [|x l1 IH]; intros σ; simpl; [done|].
  unfold bind in *. destruct (body x σ) as [[e|[]] σ']; [done|].
  apply IH.
Qed.

Lemma fold_each_app {X B} (l1 l2 : list X) (v : B) (body : B → X → M Σ B)
    (σ : Σ) :
  fold_each (l1 ++ l2) v body σ =
  bind (fold_each l1 v body) (λ v', fold_each l2 v' body) σ.
Proof.
  revert v σ. induction l1 as [|x l1 IH]; intros v σ; simpl; [done|].
  unfold bind in *. destruct (body v x σ) as [[e|v'] σ']; [done|].
  apply IH.
Qed.
(** Loops with an invariant that depends on the elements done. *)
Lemma hoare_for_each_prefix {X} (I : list X → Σ → Prop) (l : list X)
    (body : X → M Σ unit) Qe (pre : list X) :
  (∀ done x, x ∈ l → hoare (I done) (body x) (λ _, I (done ++ [x])) Qe) →
  hoare (I pre) (for_each l body) (λ _, I (pre ++ l)) Qe.
Proof.
  revert pre. induction l as [|x l IH]; intros pre Hbody; simpl.
  - apply hoare_ret. intros σ. by rewrite app_nil_r.
  - replace (pre ++ x :: l) with ((pre ++ [x]) ++ l)
      by (by rewrite <- app_assoc).
    apply (hoare_bind _ _ _ (λ _, I (pre ++ [x]))); [apply Hbody; left|].
    intros ?. apply IH. intros done y Hy. apply Hbody. by right.
Qed.

Lemma hoare_fold_each_prefix {X B} (I : list X → B → Σ → Prop) (l : list X)
    (v : B) (body : B → X → M Σ B) Qe (pre : list X) :
  (∀ done v' x, x ∈ l →
     hoare (I done v') (body v' x) (λ v'', I (done ++ [x]) v'') Qe) →
  hoare (I pre v) (fold_each l v body) (λ v', I (pre ++ l) v') Qe.
Proof.
  revert pre v. induction l as [|x l IH]; intros pre v Hbody; simpl.
  - apply hoare_ret. intros σ. by rewrite app_nil_r.
  - replace (pre ++ x :: l) with ((pre ++ [x]) ++ l)
      by (by rewrite <- app_assoc).
    apply (hoare_bind _ _ _ (λ v', I (pre ++ [x]) v')); [apply Hbody; left|].
    intros v'. apply IH. intros done v'' y Hy. apply Hbody. by right.
Qed.
End MonadRules.

(** Invariants through the syntax of a computation. *)
Ltac preserve_step :=
  lazymatch goal with
  | |- preserves _ (ret _) => apply preserves_ret
  | |- preserves _ (raise _) => apply preserves_raise
  | |- preserves _ (lift _) => apply preserves_lift
  | |- preserves _ (gets _) => apply preserves_gets
  | |- preserves _ (bind _ _) => apply preserves_bind; [|intros ?]
  | |- preserves _ (for_each _ _) => apply preserves_for_each; intros ? ?
  | |- preserves _ (fold_each _ _ _) =>
      apply preserves_fold_each; intros ? ? ?
  end.

Ltac preserve := repeat preserve_step.

(* ================================================================== *)
(** * Facts on MathSet *)
(* ================================================================== *)

Module MathSetFacts.
Import MathSet.
Section facts.
Context {A : Type} `{EqDecision A}.

Lemma elem_of_add (x y : A) (l : list A) : y ∈ add x l ↔ y = x ∨ y ∈ l.
Proof.
  unfold add. destruct (decide (x ∈ l)) as [Hx|Hx].
  - split; [by right|]. intros [->|Hy]; done.
  - rewrite elem_of_app, list_elem_of_singleton. tauto.
Qed.

Lemma NoDup_add (x : A) (l : list A) : NoDup l → NoDup (add x l).
Proof.
  intros Hl. unfold add. destruct (decide (x ∈ l)) as [Hx|Hx]; [done|].
  apply NoDup_app. split_and!; [done| |apply NoDup_singleton].
  intros y Hy ->%list_elem_of_singleton. done.
Qed.

Lemma elem_of_add_from (xs l : list A) (y : A) :
  y ∈ add_from xs l ↔ y ∈ xs ∨ y ∈ l.
Proof.
  unfold add_from. revert l. induction xs as [|x xs IH]; intros l; simpl.
  - rewrite elem_of_nil. tauto.
  - rewrite IH, elem_of_add, elem_of_cons. tauto.
Qed.

Lemma pop_None (i : nat) (l : list A) : pop i l = None ↔ l = [].
Proof.
  destruct l as [|a l]; simpl; [done|]. split; [|done].
  intros Hp. apply fmap_None in Hp.
  apply lookup_ge_None in Hp. simpl in Hp.
  pose proof (Nat.mod_upper_bound i (Datatypes.S (length l))). lia.
Qed.

Lemma pop_Some (i : nat) (l rest : list A) (x : A) :
  pop i l = Some (x, rest) →
  ∃ k, l !! k = Some x ∧ rest = delete k l.
Proof.
  destruct l as [|a l]; [done|]. unfold pop.
  intros Hp. apply fmap_Some in Hp as (y & Hy & Heq).
  injection Heq as -> ->. eauto.
Qed.

Lemma pop_singleton (i : nat) (x : A) : pop i [x] = Some (x, []).
Proof. unfold pop. simpl length. by rewrite Nat.mod_1_r. Qed.
End facts.
End MathSetFacts.

(* ================================================================== *)
(** * Facts on the synchronous product *)
(* ================================================================== *)

Section ProductFacts.
Import MathSetFacts.
Context {S Q V Act : Type} `{EqDecision S, EqDecision Q, EqDecision Act}.
Variable fts : FiniteTransitionSystem (S:=S) (V:=V) (Act:=Act).
Variable ba : BuchiAutomaton (Q:=Q) (V:=V).
Implicit Types (σ : frame (S:=S) (Q:=Q) (Act:=Act)) (sq x y : S * Q).
Local Abbreviation preimage_law := (preimage_law (S:=S) (Act:=Act) ba).
Local Abbreviation initial_are := (initial_are (S:=S) (Q:=Q) (Act:=Act)).
Local Abbreviation seeding_frame := (seeding_frame (S:=S) (Q:=Q) (Act:=Act)).
Local Abbreviation control := (control (S:=S) (Q:=Q) (Act:=Act)).

(** ** The accepting preimage *)

(** A change of the locals that touches neither the states of the product
    nor the accepting preimage. *)
Lemma preimage_law_frame (f : frame → frame) :
  (∀ σ, p_states (prodts (f σ)) = p_states (prodts σ)) →
  (∀ σ, accepting_states_preimage (f σ) = accepting_states_preimage σ) →
  preserves preimage_law (modify f).
Proof.
  intros Hs Hp. apply preserves_modify. intros σ Hσ sq.
  rewrite Hs, Hp. apply Hσ.
Qed.

Lemma preimage_law_seed_target s0 tr :
  preserves preimage_law (seed_target ba s0 tr).
Proof.
  destruct tr as [[curq0 q] sublabels]. unfold seed_target.
  intros σ Hσ. unfold bind, modify. simpl.
  destruct (decide (q ∈ ba_states_accepting ba)) as [Hq|Hq]; simpl.
  - intros x. simpl. rewrite !elem_of_add, (Hσ x).
    split; [intros [->|[??]]; auto|]. intros [[->|?] ?]; auto.
  - intros x. simpl. rewrite !elem_of_add, (Hσ x).
    split; [intros [??]; auto|]. intros [[->|?] ?]; auto. done.
Qed.

Lemma preimage_law_seed_s0 s0 : preserves preimage_law (seed_s0 fts ba s0).
Proof.
  unfold seed_s0. preserve. unfold seed_q0.
  match goal with |- context [ba_transitions_find ?b ?q ?d] =>
    destruct (ba_transitions_find b q d) as [|tr trs] eqn:E
  end; [apply preserves_ret|].
  preserve. apply preimage_law_seed_target.
Qed.

Lemma preimage_law_add_product_edge sq new_sq s next_s tr :
  preserves preimage_law (add_product_edge sq new_sq s next_s tr).
Proof.
  destruct tr as [[from_s to_s] sublabel_values]. unfold add_product_edge.
  repeat case_decide; try apply preserves_raise.
  destruct sublabel_values; by apply preimage_law_frame.
Qed.

Lemma preimage_law_expand_target sq s next_s tr :
  preserves preimage_law (expand_target fts ba sq s next_s tr).
Proof.
  destruct tr as [[q next_q] sublabels]. unfold expand_target.
  assert (preserves preimage_law
    (bind (modify (on_prodts (states_label (next_s, next_q) [next_q])))
       (λ _, bind (for_each (fts_transitions_find fts s next_s)
                     (add_product_edge sq (next_s, next_q) s next_s))
               (λ _, ret q)))) as Hrest.
  { preserve; [by apply preimage_law_frame|].
    apply preimage_law_add_product_edge. }
  intros σ Hσ. unfold bind at 1 2 3. simpl.
  destruct (decide (next_q ∈ ba_states_accepting ba)) as [Hq|Hq]; simpl;
    apply Hrest; intros x; simpl; rewrite ?elem_of_add, (Hσ x).
  - split; [intros [->|[??]]; auto|]. intros [[->|?] ?]; auto.
  - split; [intros [??]; auto|]. intros [[->|?] ?]; auto. done.
Qed.

Lemma preimage_law_expand (str : S → string) sq :
  preserves preimage_law (expand str fts ba sq).
Proof.
  unfold expand. destruct sq as [s q].
  preserve; try by apply preimage_law_frame.
  - unfold expand_succ.
    match goal with |- context [fts_states_find ?t ?x] =>
      destruct (fts_states_find t x)
    end; preserve.
    apply preimage_law_expand_target.
  - unfold enqueue_new. preserve. case_decide; preserve.
    by apply preimage_law_frame.
Qed.

Lemma preimage_law_while_queue (str : S → string)
    (pick : list (S * Q) → list (S * Q) → nat) fuel :
  preserves preimage_law (while_queue str pick fts ba fuel).
Proof.
  induction fuel as [|n IH]; intros σ Hσ; simpl;
    destruct (MathSet.pop _ _) as [[sq rest]|]; try done.
  revert σ Hσ.
  change (preserves preimage_law
    (bind (modify (on_queue (λ _, rest)))
       (λ _, bind (expand str fts ba sq)
               (λ _, while_queue str pick fts ba n)))).
  preserve; [by apply preimage_law_frame| |done].
  apply preimage_law_expand.
Qed.

Lemma preimage_law_build (str : S → string)
    (pick : list (S * Q) → list (S * Q) → nat) fuel :
  preserves preimage_law (build str pick fts ba fuel).
Proof.
  unfold build. preserve; try by apply preimage_law_frame.
  - apply preimage_law_seed_s0.
  - apply preimage_law_while_queue.
Qed.

Lemma preimage_law_new_frame : preimage_law (new_frame fts ba).
Proof.
  intros sq. simpl.
  split; [intros []%elem_of_nil|intros [[]%elem_of_nil _]].
Qed.

(** ** Unfolding the loops *)

Lemma while_queue_empty (str : S → string)
    (pick : list (S * Q) → list (S * Q) → nat) fuel σ :
  queue σ = [] → while_queue str pick fts ba fuel σ = (inr true, σ).
Proof. intros Hq. destruct fuel; simpl; by rewrite Hq. Qed.

Lemma while_queue_singleton (str : S → string)
    (pick : list (S * Q) → list (S * Q) → nat) fuel σ sq :
  queue σ = [sq] →
  while_queue str pick fts ba (Datatypes.S fuel) σ =
  bind (expand str fts ba sq) (λ _, while_queue str pick fts ba fuel)
       (on_queue (λ _, []) σ).
Proof. intros Hq. simpl. by rewrite Hq, pop_singleton. Qed.

(** ** The search *)

(** [convert_ts2ba_label] on the pairs found for a state. *)
Lemma convert_labeled s v :
  ap_label fts s = Some v →
  ¬ unlabeled fts s ∧
  convert_ts2ba_label (fts_states_find fts s) = inr {[ "in_alphabet" := v ]}.
Proof.
  unfold ap_label, unlabeled, convert_ts2ba_label.
  destruct (fts_states_find fts s) as [|[s' d] l]; [done|].
  by intros ->.
Qed.

Lemma convert_unlabeled s :
  unlabeled fts s →
  convert_ts2ba_label (fts_states_find fts s) =
  inl (IndexError "list index out of range").
Proof. unfold unlabeled. by intros ->. Qed.

Lemma convert_inl s e :
  convert_ts2ba_label (fts_states_find fts s) = inl e →
  e = IndexError "list index out of range" ∧ unlabeled fts s ∨
  e = KeyError "ap" ∧ ¬ unlabeled fts s ∧ ap_label fts s = None.
Proof.
  unfold ap_label, unlabeled, convert_ts2ba_label.
  destruct (fts_states_find fts s) as [|[s' d] l]; [by intros [= <-]; left|].
  destruct (d !! "ap"); [done|]. intros [= <-]. by right.
Qed.

Lemma seed_target_spec s0 tr P :
  hoare (initial_are P) (seed_target ba s0 tr)
        (λ _, initial_are (λ y, P y ∨ y = (s0, tr.1.2)))
        (λ _ _, False).
Proof.
  destruct tr as [[curq0 q] sublabels]. unfold seed_target.
  intros σ HP. unfold bind, modify, initial_are. simpl.
  destruct (decide (q ∈ ba_states_accepting ba)); simpl;
    intros y; rewrite elem_of_add, (HP y); tauto.
Qed.

Lemma seed_q0_spec s0 v q0 P :
  hoare (initial_are P) (seed_q0 ba s0 {[ "in_alphabet" := v ]} q0)
        (λ _, initial_are (λ y, P y ∨ (y.1 = s0 ∧ y.2 ∈ ba_targets ba q0 v)))
        (λ _ _, False).
Proof.
  unfold seed_q0, ba_targets.
  set (trs := ba_transitions_find ba q0 _).
  assert (hoare (initial_are P) (for_each trs (seed_target ba s0))
    (λ _, initial_are (λ y, P y ∨ (y.1 = s0 ∧ y.2 ∈ (λ tr, tr.1.2) <$> trs)))
    (λ _ _, False)) as Hloop.
  { eapply hoare_conseq.
    - apply (hoare_for_each_prefix
        (λ done, initial_are
           (λ y, P y ∨ (y.1 = s0 ∧ y.2 ∈ (λ tr, tr.1.2) <$> done)))
        trs (seed_target ba s0) (λ _ _, False) []).
      intros done tr _. eapply hoare_conseq; [apply seed_target_spec|..];
        [done| |done].
      intros ? σ HP y. rewrite (HP y).
      rewrite fmap_app, elem_of_app. simpl. rewrite list_elem_of_singleton.
      destruct y as [s q]. simpl. split.
      + intros [[?|[??]]|[= -> ->]]; auto.
      + intros [?|[-> [?| ->]]]; auto.
    - intros σ HP y. rewrite (HP y). simpl.
      rewrite elem_of_nil. tauto.
    - done.
    - done. }
  destruct trs as [|tr trs'] eqn:Htrs; [|exact Hloop].
  apply hoare_ret. intros σ HP y.
  rewrite (HP y). simpl. rewrite elem_of_nil. tauto.
Qed.

Lemma seed_s0_spec s0 v P :
  ap_label fts s0 = Some v →
  hoare (initial_are P) (seed_s0 fts ba s0)
        (λ _, initial_are (λ y, P y ∨
           (y.1 = s0 ∧ ∃ q0, q0 ∈ ba_states_initial ba ∧
                             y.2 ∈ ba_targets ba q0 v)))
        (λ _ _, False).
Proof.
  intros [_ Hconv]%convert_labeled. unfold seed_s0. rewrite Hconv.
  apply (hoare_bind _ _ _ (λ d σ, d = {[ "in_alphabet" := v ]} ∧
                                  initial_are P σ)).
  { by apply hoare_lift. }
  intros d. eapply hoare_conseq.
  - apply (hoare_for_each_prefix
      (λ done σ, d = {[ "in_alphabet" := v ]} ∧ initial_are (λ y, P y ∨
         (y.1 = s0 ∧ ∃ q0, q0 ∈ done ∧ y.2 ∈ ba_targets ba q0 v)) σ)
      (ba_states_initial ba) (seed_q0 ba s0 d) (λ _ _, False) []).
    intros done q0 _ σ [-> Hσ]. pose proof (seed_q0_spec s0 v q0 _ σ Hσ) as Hq.
    destruct (seed_q0 _ _ _ _ _) as [[e|[]] σ']; [done|].
    split; [done|]. intros y. rewrite (Hq y). split.
    + intros [[?|(?&q&?&?)]|[??]]; [by left| |].
      * right. split; [done|]. exists q. rewrite elem_of_app. auto.
      * right. split; [done|]. exists q0. rewrite elem_of_app.
        rewrite list_elem_of_singleton. auto.
    + intros [?|(?&q&[?| ->%list_elem_of_singleton]%elem_of_app&?)]; eauto 7.
  - intros σ [-> HP]. split; [done|].
    intros y. rewrite (HP y). split; [by left|].
    intros [?|(_&q&[]%elem_of_nil&_)]. done.
  - intros ? σ [_ Hσ]. done.
  - done.
Qed.

(** The loop over the initial states: it returns when each of them has a
    label, with the initial states of the product; with well-formed labels
    it raises otherwise an [IndexError], for a state without label. *)
Lemma seeding_spec :
  (∀ s0, s0 ∈ fts_states_initial fts →
         unlabeled fts s0 ∨ is_Some (ap_label fts s0)) →
  hoare (initial_are (λ _, False))
        (for_each (fts_states_initial fts) (seed_s0 fts ba))
        (λ _ σ, initial_are (product_initial fts ba) σ ∧
                ∀ s0, s0 ∈ fts_states_initial fts → ¬ unlabeled fts s0)
        (λ e _, e = IndexError "list index out of range" ∧
                ∃ s0, s0 ∈ fts_states_initial fts ∧ unlabeled fts s0).
Proof.
  intros Hlab. eapply hoare_conseq.
  - apply (hoare_for_each_prefix
      (λ done σ, initial_are (λ y, y.1 ∈ done ∧
         ∃ v q0, ap_label fts y.1 = Some v ∧
                 q0 ∈ ba_states_initial ba ∧ y.2 ∈ ba_targets ba q0 v) σ ∧
         ∀ s0, s0 ∈ done → ¬ unlabeled fts s0)
      (fts_states_initial fts) (seed_s0 fts ba)
      (λ e _, e = IndexError "list index out of range" ∧
              ∃ s0, s0 ∈ fts_states_initial fts ∧ unlabeled fts s0) []).
    intros done s0 Hs0 σ [HP Hdone].
    destruct (Hlab s0 Hs0) as [Hun|[v Hv]].
    { unfold seed_s0, bind, lift. rewrite convert_unlabeled by done.
      simpl. split; [done|]. eauto. }
    pose proof (seed_s0_spec s0 v _ Hv σ HP) as Hspec.
    destruct (seed_s0 fts ba s0 σ) as [[e|[]] σ']; [done|]. split.
    + intros y. rewrite (Hspec y).
      rewrite elem_of_app, list_elem_of_singleton. split.
      * intros [[? ?]|[-> (q0&?&?)]]; [by auto|]. split; [by right|]. eauto.
      * intros [[?| ->] (v'&q0&Hv'&?&?)]; [by eauto 8|].
        right. split; [done|]. exists q0. split; [done|]. congruence.
    + intros s [?| ->%list_elem_of_singleton]%elem_of_app; [by auto|].
      by eapply convert_labeled.
  - intros σ HP. split; [|by intros ? []%elem_of_nil].
    intros y. rewrite (HP y). rewrite elem_of_nil. tauto.
  - intros ? σ Hσ. exact Hσ.
  - intros e σ He. exact He.
Qed.

Lemma add_product_edge_spec sq new_sq s next_s tr qu vi P :
  tr.1.1 = s ∧ tr.1.2 = next_s →
  hoare (control qu vi P) (add_product_edge sq new_sq s next_s tr)
        (λ _, control qu vi P) (λ _ _, False).
Proof.
  destruct tr as [[from_s to_s] sublabel_values]. simpl. intros [-> ->].
  unfold add_product_edge. rewrite !decide_True by done.
  destruct sublabel_values; by apply hoare_modify.
Qed.

Lemma expand_target_spec ts_states sq s next_s tr q v qu vi P :
  well_formed_operands fts ba ts_states →
  tr ∈ ba_transitions_find ba q {[ "in_alphabet" := v ]} →
  hoare (control qu vi P) (expand_target fts ba sq s next_s tr)
        (λ q' σ, q' = q ∧ control qu vi (λ y, P y ∨ y = (next_s, tr.1.2)) σ)
        (λ _ _, False).
Proof.
  intros Hwf Htr. pose proof (wf_from _ _ _ Hwf _ _ _ Htr) as Hq.
  destruct tr as [[q0 next_q] sublabels]. simpl in *. subst q0.
  unfold expand_target.
  assert (hoare (control qu vi (λ y, P y ∨ y = (next_s, next_q)))
    (bind (for_each (fts_transitions_find fts s next_s)
                    (add_product_edge sq (next_s, next_q) s next_s))
          (λ _, ret q))
    (λ q' σ, q' = q ∧ control qu vi (λ y, P y ∨ y = (next_s, next_q)) σ)
    (λ _ _, False)) as Hrest.
  { apply (hoare_bind _ _ _
             (λ _, control qu vi (λ y, P y ∨ y = (next_s, next_q))));
      [|intros ?; by apply hoare_ret].
    apply hoare_for_each. intros tr' Htr'.
    apply add_product_edge_spec. by eapply wf_edges. }
  intros σ (Hqu & Hvi & HP). unfold bind at 1 2 3 4. simpl.
  assert (∀ σ', queue σ' = qu → visited σ' = vi →
                next_sqs σ' = MathSet.add (next_s, next_q) (next_sqs σ) →
                control qu vi (λ y, P y ∨ y = (next_s, next_q)) σ') as Hctl.
  { intros σ' ? ? Hn. split_and!; [done..|]. intros y.
    rewrite Hn, elem_of_add, (HP y). tauto. }
  destruct (decide (next_q ∈ ba_states_accepting ba)); simpl;
    apply Hrest, Hctl; done.
Qed.

Lemma expand_succ_labeled ts_states sq s q next_s v qu vi P (str : S → string) :
  well_formed_operands fts ba ts_states →
  ap_label fts next_s = Some v →
  hoare (control qu vi P) (expand_succ str fts ba sq s q next_s)
        (λ q' σ, q' = q ∧
           control qu vi
             (λ y, P y ∨ (y.1 = next_s ∧ y.2 ∈ ba_targets ba q v)) σ)
        (λ _ _, False).
Proof.
  intros Hwf Hv. destruct (convert_labeled _ _ Hv) as [Hlab Hconv].
  unfold expand_succ, unlabeled in *.
  destruct (fts_states_find fts next_s) as [|p l] eqn:Hfind; [done|].
  rewrite Hconv.
  apply (hoare_bind _ _ _ (λ d σ, d = {[ "in_alphabet" := v ]} ∧
                                  control qu vi P σ)).
  { by apply hoare_lift. }
  intros d. unfold ba_targets.
  eapply hoare_conseq.
  - apply (hoare_fold_each_prefix
      (λ done q' σ, d = {[ "in_alphabet" := v ]} ∧ q' = q ∧
         control qu vi
           (λ y, P y ∨ (y.1 = next_s ∧ y.2 ∈ (λ tr, tr.1.2) <$> done)) σ)
      (ba_transitions_find ba q d) q
      (λ _, expand_target fts ba sq s next_s) (λ _ _, False) []).
    intros done q' tr Htr σ (-> & -> & Hσ).
    pose proof (expand_target_spec ts_states sq s next_s tr q v _ _ _
                  Hwf Htr σ Hσ) as Hspec.
    destruct (expand_target _ _ _ _ _ _ _) as [[e|q''] σ']; [done|].
    destruct Hspec as (-> & Hqu & Hvi & HP).
    split; [done|]. split; [done|]. split_and!; [done..|].
    intros y. rewrite (HP y), fmap_app, elem_of_app. simpl.
    rewrite list_elem_of_singleton. destruct y as [s' q']. simpl. split.
    + intros [[?|[??]]|[= -> ->]]; auto.
    + intros [?|[-> [?| ->]]]; auto.
  - intros σ (-> & Hqu & Hvi & HP).
    split; [done|]. split; [done|]. split_and!; [done..|].
    intros y. rewrite (HP y). simpl. rewrite elem_of_nil. tauto.
  - intros q' σ (-> & -> & Hσ). done.
  - done.
Qed.

Lemma enqueue_new_spec next_sq vi ns P :
  hoare (λ σ, visited σ = vi ∧ next_sqs σ = ns ∧ NoDup (queue σ) ∧
              ∀ y, y ∈ queue σ ↔ P y)
        (enqueue_new next_sq)
        (λ _ σ, visited σ = vi ∧ next_sqs σ = ns ∧ NoDup (queue σ) ∧
                ∀ y, y ∈ queue σ ↔ P y ∨ (y = next_sq ∧ y ∉ vi))
        (λ _ _, False).
Proof.
  intros σ (Hvi & Hns & Hnd & HP). unfold enqueue_new, bind, gets. simpl.
  rewrite Hvi. destruct (decide (next_sq ∈ vi)) as [Hin|Hin]; simpl.
  - split_and!; [done..|]. intros y. rewrite (HP y).
    split; [by left|]. intros [?|[-> ?]]; done.
  - split_and!; [done|done|by apply NoDup_add|]. intros y.
    rewrite elem_of_add, (HP y). split.
    + intros [-> | ?]; auto.
    + intros [?|[-> ?]]; auto.
Qed.

Lemma expand_spec ts_states sq rest vi (str : S → string) :
  well_formed_operands fts ba ts_states →
  NoDup rest →
  hoare (λ σ, queue σ = rest ∧ visited σ = vi)
        (expand str fts ba sq)
        (λ _, expanded fts ba sq rest vi)
        (λ e σ, visited σ = MathSet.add sq vi ∧
                ∃ next_s, e = Exception (no_ap_label_msg str next_s) ∧
                          unlabeled fts next_s ∧
                          next_s ∈ fts_states_post fts sq.1).
Proof.
  intros Hwf Hrest. destruct sq as [s q]. unfold expand.
  set (vi' := MathSet.add (s, q) vi).
  apply (hoare_bind _ _ _ (λ _ σ, queue σ = rest ∧ visited σ = vi')).
  { apply hoare_modify. intros σ [? Hvi]. simpl. by rewrite Hvi. }
  intros _.
  apply (hoare_bind _ _ _ (λ _, control rest vi' (λ _, False))).
  { apply hoare_modify. intros σ [? ?]. split_and!; [done..|].
    intros y. simpl. rewrite elem_of_nil. tauto. }
  intros _.
  apply (hoare_bind _ _ _
    (λ _ σ, control rest vi' (product_step fts ba (s, q)) σ ∧
            ∀ s', s' ∈ fts_states_post fts s → ¬ unlabeled fts s')).
  { eapply hoare_conseq.
    - apply (hoare_fold_each_prefix
        (λ done q' σ, q' = q ∧
           control rest vi'
             (λ y, y.1 ∈ done ∧ ∃ v, ap_label fts y.1 = Some v ∧
                                     y.2 ∈ ba_targets ba q v) σ ∧
           ∀ s', s' ∈ done → ¬ unlabeled fts s')
        (fts_states_post fts s) q (expand_succ str fts ba (s, q) s)
        (λ e σ, visited σ = vi' ∧
                ∃ next_s, e = Exception (no_ap_label_msg str next_s) ∧
                          unlabeled fts next_s ∧
                          next_s ∈ fts_states_post fts s) []).
      intros done q' next_s Hnext σ (-> & Hσ & Hdone).
      destruct (wf_labels _ _ _ Hwf next_s) as [Hun|[v Hv]].
      + unfold expand_succ. rewrite Hun. unfold raise.
        destruct Hσ as (_ & ? & _). eauto.
      + pose proof (expand_succ_labeled ts_states (s, q) s q next_s v
                      _ _ _ str Hwf Hv σ Hσ) as Hspec.
        destruct (expand_succ _ _ _ _ _ _ _ _) as [[e|q''] σ']; [done|].
        destruct Hspec as (-> & Hqu & Hvi & HP).
        split; [done|]. split.
        * split_and!; [done..|]. intros y. rewrite (HP y).
          rewrite elem_of_app, list_elem_of_singleton. split.
          -- intros [[? ?]|[-> ?]]; [by auto|]. split; [by right|]. eauto.
          -- intros [[?| ->] (v'&Hv'&?)]; [by eauto 8|].
             right. split; [done|]. congruence.
        * intros s' [?| ->%list_elem_of_singleton]%elem_of_app; [by auto|].
          by eapply convert_labeled.
    - intros σ (Hqu & Hvi & HP). split; [done|].
      split; [|by intros ? []%elem_of_nil].
      split_and!; [done..|]. intros y. rewrite (HP y), elem_of_nil. tauto.
    - intros q' σ (_ & Hσ & Hdone). done.
    - done. }
  intros _.
  apply (hoare_bind _ _ _
    (λ l σ, (∀ y, y ∈ l ↔ product_step fts ba (s, q) y) ∧
            queue σ = rest ∧ visited σ = vi' ∧ next_sqs σ = l ∧
            ∀ s', s' ∈ fts_states_post fts s → ¬ unlabeled fts s')).
  { apply hoare_gets. intros σ [(? & ? & ?) ?]. done. }
  intros l. eapply hoare_conseq.
  - apply (hoare_for_each_prefix
      (λ done σ, (∀ y, y ∈ l ↔ product_step fts ba (s, q) y) ∧
         (visited σ = vi' ∧ next_sqs σ = l ∧ NoDup (queue σ) ∧
          ∀ y, y ∈ queue σ ↔ y ∈ rest ∨ (y ∈ done ∧ y ∉ vi')) ∧
         ∀ s', s' ∈ fts_states_post fts s → ¬ unlabeled fts s')
      l enqueue_new (λ _ _, False) []).
    intros done next_sq _ σ (Hl & Hσ & Hlab).
    pose proof (enqueue_new_spec next_sq vi' l _ σ Hσ) as Hspec.
    destruct (enqueue_new next_sq σ) as [[e|[]] σ']; [done|].
    destruct Hspec as (Hvi & Hns & Hnd & HP). split_and!; [done..| |done].
    intros y. rewrite (HP y), elem_of_app, list_elem_of_singleton. tauto.
  - intros σ (Hl & Hqu & Hvi & Hns & Hlab). split_and!; [done..| | |done].
    + by rewrite Hqu.
    + intros y. rewrite Hqu, elem_of_nil. tauto.
  - intros _ σ (Hl & (Hvi & Hns & Hnd & HP) & Hlab).
    split_and!; [done..| | |done].
    + intros y. rewrite (HP y), app_nil_l, (Hl y). done.
    + intros y. by rewrite Hns.
  - done.
Qed.

(** The expansion of a state adds to the product the successors it
    collects, and leaves the initial states alone. *)
Lemma expand_keeps_states (str : S → string) sq st0 ini :
  hoare (λ σ, NoDup (p_states (prodts σ)) ∧ p_initial (prodts σ) = ini ∧
              ∀ y, y ∈ p_states (prodts σ) ↔ y ∈ st0)
        (expand str fts ba sq)
        (λ _, states_frame st0 ini) (λ _ _, True).
Proof.
  destruct sq as [s q]. unfold expand.
  apply (hoare_bind _ _ _
    (λ _ σ, NoDup (p_states (prodts σ)) ∧ p_initial (prodts σ) = ini ∧
            ∀ y, y ∈ p_states (prodts σ) ↔ y ∈ st0));
    [by apply hoare_modify|intros _].
  apply (hoare_bind _ _ _ (λ _, states_frame st0 ini)).
  { apply hoare_modify. intros σ (? & ? & Hst). split_and!; [done..|].
    intros y. simpl. rewrite (Hst y), elem_of_nil. tauto. }
  intros _. apply (hoare_bind _ _ _ (λ _, states_frame st0 ini)).
  - apply hoare_fold_each. intros q' next_s _. unfold expand_succ.
    destruct (fts_states_find fts next_s) as [|p l] eqn:Hfind;
      [by apply hoare_raise|].
    apply (hoare_bind _ _ _ (λ _, states_frame st0 ini)).
    { apply hoare_lift. intros σ Hσ. by destruct (convert_ts2ba_label _). }
    intros d. apply hoare_fold_each. intros q'' [[q0 next_q] sublabels] _.
    unfold expand_target.
    assert (hoare (states_frame st0 ini)
      (bind (modify (on_prodts (states_label (next_s, next_q) [next_q])))
         (λ _, bind (for_each (fts_transitions_find fts s next_s)
                       (add_product_edge (s, q) (next_s, next_q) s next_s))
                 (λ _, ret q0)))
      (λ _, states_frame st0 ini) (λ _ _, True)) as Hrest.
    { apply (hoare_bind _ _ _ (λ _, states_frame st0 ini));
        [by apply hoare_modify|intros _].
      apply (hoare_bind _ _ _ (λ _, states_frame st0 ini));
        [|intros _; by apply hoare_ret].
      apply hoare_for_each. intros [[from_s to_s] sublabel_values] _.
      unfold add_product_edge.
      repeat case_decide; try by apply hoare_raise.
      destruct sublabel_values; by apply hoare_modify. }
    intros σ (Hnd & Hini & Hst). unfold bind at 1 2 3. simpl.
    assert (∀ σ', p_states (prodts σ') =
                    MathSet.add (next_s, next_q) (p_states (prodts σ)) →
                  p_initial (prodts σ') = p_initial (prodts σ) →
                  next_sqs σ' = MathSet.add (next_s, next_q) (next_sqs σ) →
                  states_frame st0 ini σ') as Hframe.
    { intros σ' Hs Hi Hn. split_and!.
      - rewrite Hs. by apply NoDup_add.
      - by rewrite Hi.
      - intros y. rewrite Hs, Hn, !elem_of_add, (Hst y). tauto. }
    destruct (decide (next_q ∈ ba_states_accepting ba)); simpl;
      apply Hrest, Hframe; done.
  - intros _. apply (hoare_bind _ _ _ (λ _, states_frame st0 ini));
      [by apply hoare_gets|].
    intros l. apply hoare_for_each. intros next_sq _. unfold enqueue_new.
    apply (hoare_bind _ _ _ (λ _, states_frame st0 ini));
      [by apply hoare_gets|].
    intros vi. case_decide; [by apply hoare_ret|by apply hoare_modify].
Qed.

Lemma pop_NoDup (i : nat) (l rest : list (S * Q)) x :
  NoDup l → MathSet.pop i l = Some (x, rest) →
  NoDup rest ∧ (x ∉ rest) ∧ ∀ y, y ∈ l ↔ y = x ∨ y ∈ rest.
Proof.
  intros Hnd (k & Hk & ->)%pop_Some.
  pose proof (delete_Permutation l k x Hk) as Hperm.
  rewrite Hperm in Hnd. apply NoDup_cons in Hnd as [? ?].
  split_and!; [done..|]. intros y. by rewrite Hperm at 1; rewrite elem_of_cons.
Qed.

Lemma reachable_in_states ts_states x :
  well_formed_operands fts ba ts_states →
  product_reachable fts ba x →
  x ∈ cprod ts_states (ba_states ba).
Proof.
  intros Hwf Hx. apply list_elem_of_cprod.
  assert (∀ q v q', q' ∈ ba_targets ba q v → q' ∈ ba_states ba) as Htg.
  { intros q v q' (tr & -> & Htr)%list_elem_of_fmap. by eapply wf_targets. }
  destruct Hx as [x [Hini (v & q0 & _ & _ & Hq)]|x x' _ [Hpost (v & _ & Hq)]].
  - split; [by eapply wf_initial|by eapply Htg].
  - split; [by eapply wf_post|by eapply Htg].
Qed.

(** One iteration of [while queue] keeps the invariant and visits one
    more state, unless it raises for a successor without label. *)
Lemma search_step ts_states (str : S → string) (i : nat) σ sq rest :
  well_formed_operands fts ba ts_states →
  search_invariant fts ba σ →
  MathSet.pop i (queue σ) = Some (sq, rest) →
  match expand str fts ba sq (on_queue (λ _, rest) σ) with
  | (inr _, σ') =>
      search_invariant fts ba σ' ∧
      length (visited σ') = Datatypes.S (length (visited σ))
  | (inl e, σ') => missing_label_raised str fts ba e σ'
  end.
Proof.
  intros Hwf [Hq Hv Hdis Hreach Hini Hclosed Hlab Hsnd Hst Hpini] Hpop.
  destruct (pop_NoDup _ _ _ _ Hq Hpop) as (Hrest & Hsq & Hmem).
  assert (sq ∈ queue σ) as Hsqq by (apply Hmem; by left).
  assert (sq ∉ visited σ) as Hsqv by by apply Hdis.
  assert (product_reachable fts ba sq) as Hsqr by (apply Hreach; by left).
  pose proof (expand_spec ts_states sq rest (visited σ) str Hwf Hrest
                (on_queue (λ _, rest) σ)) as Hspec.
  pose proof (expand_keeps_states str sq (p_states (prodts σ))
                (p_initial (prodts σ)) (on_queue (λ _, rest) σ)) as Hkeep.
  destruct (expand _ _ _ _ _) as [[e|[]] σ'].
  - destruct Hspec as (Hvi & next_s & -> & Hun & Hpost); [done|].
    exists sq, next_s. split_and!; [done..| |done|done].
    rewrite Hvi. apply elem_of_add. by left.
  - destruct Hspec as (Hvi & Hnd & Hqu & Hnext & Hl); [done|].
    destruct Hkeep as (Hsnd' & Hpini' & Hst'); [done|]. split.
    + split.
      * done.
      * rewrite Hvi. by apply NoDup_add.
      * intros y Hy. rewrite Hvi. apply Hqu in Hy as [Hy|[_ Hy]]; [|done].
        rewrite elem_of_add.
        intros [-> | ?]; [done|]. eapply Hdis; [|done]. apply Hmem. by right.
      * intros y. rewrite Hvi, Hqu, elem_of_add.
        intros [[?|[? _]]|[-> |?]]; [|by eapply reachable_step|done|].
        -- apply Hreach. left. apply Hmem. by right.
        -- apply Hreach. by right.
      * intros y [[-> |?]%Hmem|?]%Hini; rewrite Hvi, Hqu, elem_of_add; auto.
      * intros x y Hx Hstep. rewrite Hvi in Hx |- *.
        apply elem_of_add in Hx.
        destruct (decide (y ∈ MathSet.add sq (visited σ))) as [Hy|Hy];
          [by right|].
        left. apply Hqu. destruct Hx as [-> |Hx]; [by right|]. left.
        destruct (Hclosed x y Hx Hstep) as [[-> |?]%Hmem|?]; [|done|];
          destruct Hy; apply elem_of_add; auto.
      * intros x s'. rewrite Hvi, elem_of_add. intros [-> |?]; eauto.
      * done.
      * intros x. rewrite (Hst' x), (Hst x), (Hnext x), (Hqu x), Hvi.
        rewrite elem_of_add, (Hmem x).
        destruct (decide (x ∈ MathSet.add sq (visited σ))) as [Hx|Hx].
        -- apply elem_of_add in Hx. tauto.
        -- rewrite elem_of_add in Hx. tauto.
      * intros x. rewrite Hpini'. apply Hpini.
    + rewrite Hvi. unfold MathSet.add. rewrite decide_False by done.
      rewrite length_app. simpl. lia.
Qed.

Lemma while_queue_spec ts_states (str : S → string)
    (pick : list (S * Q) → list (S * Q) → nat) (fuel : nat) σ :
  well_formed_operands fts ba ts_states →
  search_invariant fts ba σ →
  length ts_states * length (ba_states ba) ≤ fuel + length (visited σ) →
  match while_queue str pick fts ba fuel σ with
  | (inr true, σ') => search_invariant fts ba σ' ∧ queue σ' = []
  | (inr false, _) => False
  | (inl e, σ') => missing_label_raised str fts ba e σ'
  end.
Proof.
  intros Hwf. revert σ. induction fuel as [|n IH]; intros σ Hinv Hfuel;
    simpl; destruct (MathSet.pop _ _) as [[sq rest]|] eqn:Hpop;
    try (by apply pop_None in Hpop).
  - destruct (pop_NoDup _ _ _ _ (inv_queue_NoDup _ _ _ Hinv) Hpop)
      as (_ & _ & Hmem).
    assert (sq ∈ queue σ) as Hsq by (apply Hmem; by left).
    assert (NoDup (sq :: visited σ)) as Hnd.
    { apply NoDup_cons. split; [by eapply inv_disjoint|].
      by eapply inv_visited_NoDup. }
    apply NoDup_submseteq with (k := cprod ts_states (ba_states ba)) in Hnd.
    + apply submseteq_length in Hnd.
      rewrite list_cprod_list_prod, length_prod in Hnd. simpl in Hnd. lia.
    + intros x Hx. eapply reachable_in_states; [done|].
      eapply inv_reachable; [done|]. apply elem_of_cons in Hx as [-> |?]; auto.
  - unfold bind at 1. simpl. unfold bind at 1.
    pose proof (search_step ts_states str _ σ sq rest Hwf Hinv Hpop) as Hstep.
    destruct (expand _ _ _ _ _) as [[e|[]] σ']; [done|].
    destruct Hstep as [Hinv' Hlen]. apply IH; [done|lia].
Qed.

Lemma seeding_keeps_frame qu vi :
  preserves (seeding_frame qu vi)
            (for_each (fts_states_initial fts) (seed_s0 fts ba)).
Proof.
  unfold seed_s0. preserve. unfold seed_q0.
  match goal with |- context [ba_transitions_find ?b ?q ?d] =>
    destruct (ba_transitions_find b q d) as [|tr trs] eqn:E
  end; [apply preserves_ret|].
  preserve.
  match goal with |- preserves _ (seed_target _ _ ?t) =>
    destruct t as [[curq0 q] sublabels]
  end.
  unfold seed_target. intros σ (Hnd & ? & ? & Hsnd & Hst).
  unfold bind, modify. simpl.
  destruct (decide (q ∈ ba_states_accepting ba)); simpl;
    (split_and!; [by apply NoDup_add|done|done|by apply NoDup_add|]);
    intros y; simpl; rewrite !elem_of_add, (Hst y); tauto.
Qed.

Lemma reachable_visited σ x :
  search_invariant fts ba σ → queue σ = [] →
  product_reachable fts ba x → x ∈ visited σ.
Proof.
  intros Hinv Hq. induction 1 as [x Hx|x x' _ IH Hstep].
  - destruct (inv_initial _ _ _ Hinv x Hx) as [Hin|?]; [|done].
    rewrite Hq in Hin. by apply elem_of_nil in Hin.
  - destruct (inv_closed _ _ _ Hinv x x' IH Hstep) as [Hin|?]; [|done].
    rewrite Hq in Hin. by apply elem_of_nil in Hin.
Qed.

Lemma build_unfold (str : S → string)
    (pick : list (S * Q) → list (S * Q) → nat) fuel σ :
  build str pick fts ba fuel σ =
  match for_each (fts_states_initial fts) (seed_s0 fts ba) σ with
  | (inl e, σ') => (inl e, σ')
  | (inr _, σ') =>
      while_queue str pick fts ba fuel
        (on_visited (λ _, []) (on_queue (λ _, p_initial (prodts σ')) σ'))
  end.
Proof.
  unfold build, bind, modify.
  by destruct (for_each _ _ σ) as [[e|[]] σ'].
Qed.

Lemma search_invariant_start qu vi σ :
  seeding_frame qu vi σ →
  initial_are (product_initial fts ba) σ →
  search_invariant fts ba
    (on_visited (λ _, []) (on_queue (λ _, p_initial (prodts σ)) σ)).
Proof.
  intros (Hnd & _ & _ & Hsnd & Hst) Hini. split; simpl; try done.
  - apply NoDup_nil_2.
  - intros x _. apply not_elem_of_nil.
  - intros x [Hx|[]%elem_of_nil]. apply reachable_initial. by apply Hini.
  - intros x Hx. left. by apply Hini.
  - intros x y []%elem_of_nil.
  - intros x s' []%elem_of_nil.
  - intros x. rewrite (Hst x), elem_of_nil. tauto.
Qed.

Lemma seeding_frame_new_frame : seeding_frame [] [] (new_frame fts ba).
Proof. split_and!; try done; apply NoDup_nil_2. Qed.

(** The construction as a whole, on well-formed operands and with fuel
    for every product state. *)
Lemma build_spec ts_states (str : S → string)
    (pick : list (S * Q) → list (S * Q) → nat) (fuel : nat) :
  well_formed_operands fts ba ts_states →
  length ts_states * length (ba_states ba) ≤ fuel →
  match build str pick fts ba fuel (new_frame fts ba) with
  | (inr true, σ) =>
      search_invariant fts ba σ ∧ queue σ = [] ∧
      ∀ s0, s0 ∈ fts_states_initial fts → ¬ unlabeled fts s0
  | (inr false, _) => False
  | (inl e, σ) =>
      (e = IndexError "list index out of range" ∧
       (∃ s0, s0 ∈ fts_states_initial fts ∧ unlabeled fts s0) ∧
       queue σ = [] ∧ visited σ = []) ∨
      ((∀ s0, s0 ∈ fts_states_initial fts → ¬ unlabeled fts s0) ∧
       missing_label_raised str fts ba e σ)
  end.
Proof.
  intros Hwf Hfuel. rewrite build_unfold.
  pose proof (seeding_spec (λ s0 _, wf_labels _ _ _ Hwf s0) (new_frame fts ba))
    as Hseed.
  pose proof (seeding_keeps_frame [] [] (new_frame fts ba)) as Hframe.
  assert (initial_are (λ _, False) (new_frame fts ba)) as H0.
  { intros y. simpl. rewrite elem_of_nil. tauto. }
  specialize (Hseed H0). specialize (Hframe seeding_frame_new_frame).
  destruct (for_each _ _ _) as [[e|[]] σ1].
  - left. destruct Hseed as [-> ?]. destruct Hframe as (_ & ? & ? & _). done.
  - destruct Hseed as [Hini Hlab].
    pose proof (search_invariant_start _ _ σ1 Hframe Hini) as Hinv.
    pose proof (while_queue_spec ts_states str pick fuel _ Hwf Hinv) as Hloop.
    destruct (while_queue _ _ _ _ _ _) as [[e|[]] σ2].
    + right. split; [done|]. apply Hloop. simpl. lia.
    + destruct Hloop as [? ?]; [simpl; lia|done].
    + apply Hloop. simpl. lia.
Qed.

(** *** Where exceptions come from, whatever the operands *)

Lemma expand_origin (str : S → string) sq :
  hoare (λ _, True) (expand str fts ba sq) (λ _ _, True)
        (exception_origin str fts).
Proof.
  destruct sq as [s q]. unfold expand.
  apply (hoare_bind _ _ _ (λ _ σ, (s, q) ∈ visited σ)).
  { apply hoare_modify. intros σ _. simpl. apply elem_of_add. by left. }
  intros _.
  apply (hoare_bind _ _ _ (λ _ σ, (s, q) ∈ visited σ));
    [by apply hoare_modify|intros _].
  apply (hoare_bind _ _ _ (λ _ _, True)).
  - eapply hoare_conseq; [|by intros σ Hσ; exact Hσ|done|by intros e σ He].
    apply hoare_fold_each. intros q' next_s Hnext.
    unfold expand_succ.
    destruct (fts_states_find fts next_s) as [|p l] eqn:Hfind.
    { apply hoare_raise. intros σ Hσ msg [= <-]. by exists (s, q), next_s. }
    apply (hoare_bind _ _ _ (λ _ σ, (s, q) ∈ visited σ)).
    { apply hoare_lift. intros σ Hσ.
      destruct (convert_ts2ba_label _) as [e|d] eqn:Hconv; [|done].
      rewrite <- Hfind in Hconv.
      by destruct (convert_inl _ _ Hconv) as [[-> _]|[-> _]]. }
    intros d. apply hoare_fold_each. intros q'' tr _.
    destruct tr as [[q0 next_q] sublabels]. unfold expand_target.
    repeat (first
      [ apply (hoare_bind _ _ _ (λ _ σ, (s, q) ∈ visited σ)); [|intros ?]
      | by apply hoare_modify
      | by apply hoare_ret
      | case_decide ]).
    apply hoare_for_each. intros tr _.
    destruct tr as [[from_s to_s] sublabel_values]. unfold add_product_edge.
    repeat case_decide; try by apply hoare_raise.
    destruct sublabel_values; by apply hoare_modify.
  - intros _. apply (hoare_bind _ _ _ (λ _ _, True)); [by apply hoare_gets|].
    intros l. apply hoare_for_each. intros next_sq _.
    unfold enqueue_new.
    apply (hoare_bind _ _ _ (λ _ _, True)); [by apply hoare_gets|].
    intros vi. case_decide; [by apply hoare_ret|by apply hoare_modify].
Qed.

Lemma while_queue_origin (str : S → string)
    (pick : list (S * Q) → list (S * Q) → nat) (fuel : nat) :
  hoare (λ _, True) (while_queue str pick fts ba fuel) (λ _ _, True)
        (exception_origin str fts).
Proof.
  induction fuel as [|n IH]; intros σ _; simpl;
    destruct (MathSet.pop _ _) as [[sq rest]|]; try done.
  unfold bind at 1. simpl. unfold bind at 1.
  pose proof (expand_origin str sq (on_queue (λ _, rest) σ) I) as Hexp.
  destruct (expand _ _ _ _ _) as [[e|[]] σ']; [done|]. by apply IH.
Qed.

Lemma seeding_origin :
  hoare (λ _, True) (for_each (fts_states_initial fts) (seed_s0 fts ba))
        (λ _ _, ∀ s0, s0 ∈ fts_states_initial fts → ¬ unlabeled fts s0)
        (λ e _, ∀ msg, e ≠ Exception msg).
Proof.
  eapply hoare_conseq.
  - apply (hoare_for_each_prefix
      (λ done _, ∀ s0, s0 ∈ done → ¬ unlabeled fts s0)
      (fts_states_initial fts) (seed_s0 fts ba)
      (λ e _, ∀ msg, e ≠ Exception msg) []).
    intros done s0 _ σ Hdone. unfold seed_s0, bind, lift.
    destruct (convert_ts2ba_label _) as [e|d] eqn:Hconv.
    { by destruct (convert_inl _ _ Hconv) as [[-> _]|[-> _]]. }
    assert (¬ unlabeled fts s0) as Hlab.
    { intros Hun. by rewrite (convert_unlabeled _ Hun) in Hconv. }
    assert (hoare (λ _, True)
              (for_each (ba_states_initial ba) (seed_q0 (Act:=Act) ba s0 d))
              (λ _ _, True) (λ _ _, False)) as Hq0.
    { apply hoare_for_each. intros q0 _. unfold seed_q0.
      destruct (ba_transitions_find ba q0 d) as [|tr trs] eqn:E;
        [by apply hoare_ret|].
      apply hoare_for_each. intros [[curq0 q] sublabels] _.
      unfold seed_target.
      repeat (first
        [ apply (hoare_bind _ _ _ (λ _ _, True)); [|intros ?]
        | by apply hoare_modify
        | by apply hoare_ret
        | case_decide ]). }
    specialize (Hq0 σ I).
    destruct (for_each _ _ σ) as [[e|[]] σ']; [done|].
    intros s [?| ->%list_elem_of_singleton]%elem_of_app; auto.
  - by intros σ _ s0 []%elem_of_nil.
  - intros ? σ Hσ. exact Hσ.
  - intros e σ He. exact He.
Qed.

Lemma build_origin (str : S → string)
    (pick : list (S * Q) → list (S * Q) → nat) (fuel : nat) σ0 :
  match build str pick fts ba fuel σ0 with
  | (inl e, σ) =>
      ∀ msg, e = Exception msg →
        (∀ s0, s0 ∈ fts_states_initial fts → ¬ unlabeled fts s0) ∧
        ∃ sq next_s,
          msg = no_ap_label_msg str next_s ∧ unlabeled fts next_s ∧
          sq ∈ visited σ ∧ next_s ∈ fts_states_post fts sq.1
  | (inr _, _) => True
  end.
Proof.
  rewrite build_unfold.
  pose proof (seeding_origin σ0 I) as Hseed.
  destruct (for_each _ _ _) as [[e|[]] σ1].
  { intros msg ->. by destruct (Hseed msg). }
  match goal with |- context [while_queue _ _ _ _ _ ?σ] =>
    pose proof (while_queue_origin str pick fuel σ I) as Hloop
  end.
  destruct (while_queue _ _ _ _ _ _) as [[e|b] σ2]; [|done].
  intros msg Hmsg. split; [done|]. by apply Hloop.
Qed.

End ProductFacts.

(* ================================================================== *)
(** * The product: the claims *)
(* ================================================================== *)

(** C1: as far as a call built the product, the accepting preimage is
    the set of the states of the product whose automaton component is an
    accepting state: a state of the product is in the preimage exactly
    when its component is accepting, whether the state was added among
    the initial states or during the search, and whether the call
    returned, raised or was cut short. *)
Theorem accepting_preimage_membership {S Q V Act : Type}
    `{EqDecision S, EqDecision Q, EqDecision Act}
    (str : S → string) (pick : list (S * Q) → list (S * Q) → nat)
    (fuel : nat) (fts : FiniteTransitionSystem (S:=S) (V:=V) (Act:=Act))
    (ba : BuchiAutomaton (Q:=Q) (V:=V)) product_ts persistent_states :
  built_product (_ts_ba_sync_prod str pick fuel (PyFTS fts) (PyBA ba))
    = Some (product_ts, persistent_states) →
  ∀ s q, (s, q) ∈ persistent_states ↔
         (s, q) ∈ p_states product_ts ∧ q ∈ ba_states_accepting ba.
Proof.
  unfold _ts_ba_sync_prod. intros Hb s q.
  destruct (atomic_proposition_based ba); [|done].
  pose proof (preimage_law_build fts ba str pick fuel _
                (preimage_law_new_frame fts ba)) as Hlaw.
  destruct (build _ _ _ _ _ _) as [[e|[]] σ]; simpl in Hb;
    injection Hb as <- <-; apply (Hlaw (s, q)).
Qed.

(** C3: an operand of the wrong class, or an automaton that is not based
    on atomic propositions, makes the call raise a TypeMismatch before the
    product is created: no locals are left behind. *)
Theorem operand_mismatch_fails_first {S Q V Act : Type}
    `{EqDecision S, EqDecision Q, EqDecision Act}
    (str : S → string) (pick : list (S * Q) → list (S * Q) → nat)
    (fuel : nat) (x y : pyobj (S:=S) (Q:=Q) (V:=V) (Act:=Act)) :
  is_fts x = false ∨ is_ba y = false ∨ is_ap_based y = false →
  ∃ e, TypeMismatch e ∧ _ts_ba_sync_prod str pick fuel x y = Raise e None.
Proof.
  intros Hbad. unfold _ts_ba_sync_prod, TypeMismatch.
  destruct x as [fts|ba'|tx]; [|eauto..].
  destruct y as [fts'|ba|ty]; [eauto| |eauto].
  simpl in Hbad. destruct (atomic_proposition_based ba); [|eauto].
  by destruct Hbad as [?|[?|?]].
Qed.

Lemma operand_mismatch_witness :
  ∃ e, TypeMismatch e ∧
    _ts_ba_sync_prod (Act:=string) Scenario.str (λ _ _, 0) 7
      (PyOther "<type 'dict'>") (PyBA Scenario.ba) = Raise e None.
Proof.
  apply (operand_mismatch_fails_first (Act:=string) Scenario.str (λ _ _, 0) 7
           (PyOther "<type 'dict'>") (PyBA Scenario.ba)).
  left. reflexivity.
Defined.

(** C2: on the scenario, whatever element the queue gives out and with
    fuel for two iterations or more, the call returns the product with
    the initial state (s0, q1), the states (s0, q1) and (s1, q0), the two
    edges between them, and the accepting preimage {(s0, q1)}. *)
Theorem scenario_product
    (pick : list (string * string) → list (string * string) → nat)
    (n : nat) :
  ∃ product_ts,
    _ts_ba_sync_prod Scenario.str pick (2 + n)
      (PyFTS Scenario.ts) (PyBA Scenario.ba)
    = Return product_ts [("s0", "q1")] ∧
    p_initial product_ts = [("s0", "q1")] ∧
    p_states product_ts = [("s0", "q1"); ("s1", "q0")] ∧
    p_transitions product_ts =
      [(("s0", "q1"), ("s1", "q0"), None);
       (("s1", "q0"), ("s0", "q1"), None)].
Proof.
  unfold _ts_ba_sync_prod. change (2 + n) with (S (S n)).
  change (atomic_proposition_based Scenario.ba) with true. cbv iota.
  rewrite build_unfold.
  match goal with |- context [for_each ?l ?b ?σ] =>
    let r := eval vm_compute in (for_each l b σ) in
    replace (for_each l b σ) with r by (vm_compute; reflexivity)
  end.
  cbv iota beta.
  erewrite while_queue_singleton by reflexivity.
  unfold bind at 1.
  match goal with |- context [expand ?a ?b ?c ?d ?σ] =>
    let r := eval vm_compute in (expand a b c d σ) in
    replace (expand a b c d σ) with r by (vm_compute; reflexivity)
  end.
  cbv iota beta.
  erewrite while_queue_singleton by reflexivity.
  unfold bind at 1.
  match goal with |- context [expand ?a ?b ?c ?d ?σ] =>
    let r := eval vm_compute in (expand a b c d σ) in
    replace (expand a b c d σ) with r by (vm_compute; reflexivity)
  end.
  cbv iota beta.
  rewrite while_queue_empty by reflexivity.
  eexists. split; [reflexivity|]. simpl. done.
Qed.

(** C5: on well-formed operands whose initial states are labeled, a state
    without label that is a successor of a reachable product state makes
    the construction raise the exception for a missing label: with fuel
    for every product state, the call raises it for a state without
    label which it met as successor of a state it visited, and the
    message carries [str] of that state. *)
Theorem unlabeled_successor_raises_missing_label {S Q V Act : Type}
    `{EqDecision S, EqDecision Q, EqDecision Act}
    (str : S → string) (pick : list (S * Q) → list (S * Q) → nat)
    (fts : FiniteTransitionSystem (S:=S) (V:=V) (Act:=Act))
    (ba : BuchiAutomaton (Q:=Q) (V:=V)) (ts_states : list S)
    (fuel : nat) (sq : S * Q) (next_s : S) :
  well_formed_operands fts ba ts_states →
  atomic_proposition_based ba = true →
  (∀ s0, s0 ∈ fts_states_initial fts → ¬ unlabeled fts s0) →
  product_reachable fts ba sq →
  next_s ∈ fts_states_post fts sq.1 →
  unlabeled fts next_s →
  length ts_states * length (ba_states ba) ≤ fuel →
  ∃ sq' next_s' σ,
    _ts_ba_sync_prod str pick fuel (PyFTS fts) (PyBA ba)
    = Raise (Exception (no_ap_label_msg str next_s')) (Some σ) ∧
    no_ap_label_msg str next_s' =
      "No AP label for FTS state: " +:+ str next_s' +:+
      nl +:+ " Did you forget labeing it ?" ∧
    unlabeled fts next_s' ∧
    sq' ∈ visited σ ∧ product_reachable fts ba sq' ∧
    next_s' ∈ fts_states_post fts sq'.1.
Proof.
  intros Hwf Hap Hini Hsq Hnext Hun Hfuel. unfold _ts_ba_sync_prod.
  rewrite Hap.
  pose proof (build_spec fts ba ts_states str pick fuel Hwf Hfuel) as Hb.
  destruct (build _ _ _ _ _ _) as [[e|[]] σ]; [| |done].
  - destruct Hb as [(_ & (s0 & Hs0 & Hun0) & _)|[_ Hraised]].
    { by destruct (Hini s0). }
    destruct Hraised as (sq' & next_s' & -> & ? & ? & ? & ?).
    by exists sq', next_s', σ.
  - destruct Hb as (Hinv & Hq & _).
    pose proof (reachable_visited fts ba σ sq Hinv Hq Hsq) as Hv.
    by destruct (inv_labeled _ _ _ Hinv sq next_s).
Qed.

(** C10: an initial state without label makes the loop over the initial
    states raise the [IndexError] of [convert_ts2ba_label], before any
    state is queued or visited, whatever the fuel; the exception itself
    names no state. And an exception of class [Exception] is raised only
    when the initial states are all labeled, for a successor of a visited
    state. *)
Theorem unlabeled_initial_state_raises_index_error {S Q V Act : Type}
    `{EqDecision S, EqDecision Q, EqDecision Act}
    (str : S → string) (pick : list (S * Q) → list (S * Q) → nat)
    (fts : FiniteTransitionSystem (S:=S) (V:=V) (Act:=Act))
    (ba : BuchiAutomaton (Q:=Q) (V:=V)) (fuel : nat) :
  atomic_proposition_based ba = true →
  ((∀ s0, s0 ∈ fts_states_initial fts →
          unlabeled fts s0 ∨ is_Some (ap_label fts s0)) →
   ∀ s0, s0 ∈ fts_states_initial fts → unlabeled fts s0 →
     convert_ts2ba_label (fts_states_find fts s0) =
       inl (IndexError "list index out of range") ∧
     ∃ σ, _ts_ba_sync_prod str pick fuel (PyFTS fts) (PyBA ba)
          = Raise (IndexError "list index out of range") (Some σ) ∧
          queue σ = [] ∧ visited σ = []) ∧
  (∀ msg σ,
     _ts_ba_sync_prod str pick fuel (PyFTS fts) (PyBA ba)
     = Raise (Exception msg) (Some σ) →
     (∀ s0, s0 ∈ fts_states_initial fts → ¬ unlabeled fts s0) ∧
     ∃ sq next_s,
       msg = no_ap_label_msg str next_s ∧ unlabeled fts next_s ∧
       sq ∈ visited σ ∧ next_s ∈ fts_states_post fts sq.1).
Proof.
  intros Hap. unfold _ts_ba_sync_prod. rewrite Hap. split.
  - intros Hlab s0 Hs0 Hun. split; [by apply convert_unlabeled|].
    rewrite build_unfold.
    pose proof (seeding_spec fts ba Hlab (new_frame fts ba)) as Hseed.
    pose proof (seeding_keeps_frame fts ba [] [] (new_frame fts ba)) as Hfr.
    destruct (for_each _ _ _) as [[e|[]] σ1].
    + destruct Hseed as [-> _].
      { intros y. simpl. rewrite elem_of_nil. tauto. }
      destruct Hfr as (_ & ? & ? & _); [|by exists σ1].
      apply seeding_frame_new_frame.
    + destruct Hseed as [_ Hall].
      { intros y. simpl. rewrite elem_of_nil. tauto. }
      by destruct (Hall s0).
  - intros msg σ.
    pose proof (build_origin fts ba str pick fuel (new_frame fts ba)) as Hb.
    destruct (build _ _ _ _ _ _) as [[e|[]] σ']; [|done..].
    intros [= -> ->]. by apply Hb.
Qed.

(** On well-formed operands the loop ends within one iteration per pair
    of a state of the system and a state of the automaton: with that much
    fuel the call returns or raises. *)
Theorem construction_ends_within_bound {S Q V Act : Type}
    `{EqDecision S, EqDecision Q, EqDecision Act}
    (str : S → string) (pick : list (S * Q) → list (S * Q) → nat)
    (fts : FiniteTransitionSystem (S:=S) (V:=V) (Act:=Act))
    (ba : BuchiAutomaton (Q:=Q) (V:=V)) (ts_states : list S) (fuel : nat) :
  well_formed_operands fts ba ts_states →
  length ts_states * length (ba_states ba) ≤ fuel →
  out_of_fuel (_ts_ba_sync_prod str pick fuel (PyFTS fts) (PyBA ba)) = false.
Proof.
  intros Hwf Hfuel. unfold _ts_ba_sync_prod.
  destruct (atomic_proposition_based ba); [|done].
  pose proof (build_spec fts ba ts_states str pick fuel Hwf Hfuel) as Hb.
  by destruct (build _ _ _ _ _ _) as [[e|[]] σ].
Qed.

(** On well-formed operands whose states, as far as the product reaches
    them, are labeled, the call returns, given fuel for every pair of
    states. The states of the product returned are the reachable product
    states, each once, and so at most one per pair of states; its initial
    states are the initial product states; the accepting preimage holds
    the reachable states whose automaton component is accepting. *)
Theorem construction_returns_reachable_product {S Q V Act : Type}
    `{EqDecision S, EqDecision Q, EqDecision Act}
    (str : S → string) (pick : list (S * Q) → list (S * Q) → nat)
    (fts : FiniteTransitionSystem (S:=S) (V:=V) (Act:=Act))
    (ba : BuchiAutomaton (Q:=Q) (V:=V)) (ts_states : list S) (fuel : nat) :
  well_formed_operands fts ba ts_states →
  atomic_proposition_based ba = true →
  (∀ s0, s0 ∈ fts_states_initial fts → ¬ unlabeled fts s0) →
  (∀ sq s', product_reachable fts ba sq →
            s' ∈ fts_states_post fts sq.1 → ¬ unlabeled fts s') →
  length ts_states * length (ba_states ba) ≤ fuel →
  ∃ product_ts persistent_states,
    _ts_ba_sync_prod str pick fuel (PyFTS fts) (PyBA ba)
    = Return product_ts persistent_states ∧
    NoDup (p_states product_ts) ∧
    (∀ y, y ∈ p_states product_ts ↔ product_reachable fts ba y) ∧
    (∀ y, y ∈ p_initial product_ts ↔ product_initial fts ba y) ∧
    (∀ y, y ∈ persistent_states ↔
          product_reachable fts ba y ∧ y.2 ∈ ba_states_accepting ba) ∧
    length (p_states product_ts) ≤ length ts_states * length (ba_states ba).
Proof.
  intros Hwf Hap Hini Hlab Hfuel. unfold _ts_ba_sync_prod. rewrite Hap.
  pose proof (build_spec fts ba ts_states str pick fuel Hwf Hfuel) as Hb.
  pose proof (preimage_law_build fts ba str pick fuel _
                (preimage_law_new_frame fts ba)) as Hlaw.
  destruct (build _ _ _ _ _ _) as [[e|[]] σ]; [| |done].
  { destruct Hb as [(_ & (s0 & Hs0 & Hun0) & _)|[_ Hraised]].
    - by destruct (Hini s0).
    - destruct Hraised as (sq & next_s & _ & ? & _ & ? & ?).
      by destruct (Hlab sq next_s). }
  destruct Hb as (Hinv & Hq & _).
  assert (∀ y, y ∈ p_states (prodts σ) ↔ product_reachable fts ba y) as Hst.
  { intros y. rewrite (inv_states _ _ _ Hinv y). split.
    - apply (inv_reachable _ _ _ Hinv).
    - intros Hy. right. by eapply reachable_visited. }
  eexists _, _. split; [done|]. split_and!.
  - by eapply inv_states_NoDup.
  - done.
  - by eapply inv_product_initial.
  - intros y. rewrite (Hlaw y), (Hst y). done.
  - rewrite <- length_prod, <- list_cprod_list_prod.
    apply submseteq_length, NoDup_submseteq; [by eapply inv_states_NoDup|].
    intros y Hy%Hst. by eapply reachable_in_states.
Qed.

(* ================================================================== *)
(** * Facts on the list-backed store *)
(* ================================================================== *)

Module ListStoreFacts.
Import ListStore.
Section facts.
Context {S Q V Act : Type} `{EqDecision S, EqDecision Q}.

(** Operands kept in lists are well-formed when every label carries the
    key ['ap'] and the states named by the initial set and by the edges
    are among the states given. *)
Lemma list_operands_well_formed
    (label_is_desired : gmap string V → gmap string V → bool)
    (ts_name ba_name : string) (ap_based : bool)
    (ts_states ts_initial : list S) (labels : list (S * gmap string V))
    (ts_edges : list (S * S * list Act))
    (ba_states ba_initial ba_accepting : list Q)
    (ba_edges : list (Q * Q * V)) :
  Forall (λ e, is_Some (e.2 !! "ap")) labels →
  Forall (λ s, s ∈ ts_states) ts_initial →
  Forall (λ e, e.1.2 ∈ ts_states) ts_edges →
  Forall (λ e, e.1.2 ∈ ba_states) ba_edges →
  well_formed_operands
    (list_fts ts_name ts_initial labels ts_edges)
    (list_ba label_is_desired ba_name ap_based
       ba_states ba_initial ba_accepting ba_edges)
    ts_states.
Proof.
  rewrite !Forall_forall. intros Hlabels Hinitial Hts Hba. split; simpl.
  - intros s. unfold unlabeled, ap_label. simpl. unfold states_find.
    destruct (filter _ labels) as [|[s' d] l] eqn:Hf; [by left|right].
    apply Hlabels with (x := (s', d)).
    eapply (list_elem_of_filter (λ e, e.1 = s)). rewrite Hf. by left.
  - intros s t tr. unfold transitions_find_to.
    rewrite list_elem_of_filter. by intros [? _].
  - intros q d tr. unfold transitions_find_label.
    rewrite list_elem_of_filter. by intros [[? _] _].
  - done.
  - intros s s'. unfold states_post.
    rewrite MathSetFacts.elem_of_add_from, elem_of_nil, list_elem_of_fmap.
    intros [(e & -> & [_ He]%list_elem_of_filter)|[]]. by apply Hts.
  - intros q d tr. unfold transitions_find_label.
    rewrite list_elem_of_filter, list_elem_of_fmap.
    intros [_ (e & -> & He)]. simpl. by apply Hba.
Qed.
End facts.
End ListStoreFacts.

(** A decidable proposition on concrete data holds by evaluation. *)
Ltac by_evaluation := apply (bool_decide_unpack _); vm_compute; exact I.

(* ================================================================== *)
(** * The product: instances of the claims *)
(* ================================================================== *)

(** In the scenario the state (s0, q1) is in the preimage, is a state of
    the product, and q1 is accepting. *)
Lemma accepting_preimage_membership_witness :
  ("s0", "q1") ∈ [("s0", "q1")] ↔
  ("s0", "q1") ∈ [("s0", "q1"); ("s1", "q0")] ∧
  "q1" ∈ ba_states_accepting Scenario.ba.
Proof.
  assert (∃ product_ts,
    built_product (_ts_ba_sync_prod Scenario.str (λ _ _, 0) 5
                     (PyFTS Scenario.ts) (PyBA Scenario.ba))
      = Some (product_ts, [("s0", "q1")]) ∧
    p_states product_ts = [("s0", "q1"); ("s1", "q0")])
    as (product_ts & Hbuilt & Hstates).
  { eexists. split; vm_compute; reflexivity. }
  rewrite <- Hstates.
  exact (accepting_preimage_membership Scenario.str (λ _ _, 0) 5
           Scenario.ts Scenario.ba product_ts _ Hbuilt "s0" "q1").
Defined.

(** The scenario with s1 left without label: the product state (s0, q1)
    is reachable, and s1 is its successor. *)
Lemma unlabeled_successor_raises_missing_label_witness :
  ∃ sq' next_s' σ,
    _ts_ba_sync_prod Scenario.str (λ _ _, 0) 4
      (PyFTS Scenario.ts_unlabeled_successor) (PyBA Scenario.ba)
    = Raise (Exception (no_ap_label_msg Scenario.str next_s')) (Some σ) ∧
    no_ap_label_msg Scenario.str next_s' =
      "No AP label for FTS state: " +:+ Scenario.str next_s' +:+
      nl +:+ " Did you forget labeing it ?" ∧
    unlabeled Scenario.ts_unlabeled_successor next_s' ∧
    sq' ∈ visited σ ∧
    product_reachable Scenario.ts_unlabeled_successor Scenario.ba sq' ∧
    next_s' ∈ fts_states_post Scenario.ts_unlabeled_successor sq'.1.
Proof.
  apply (unlabeled_successor_raises_missing_label Scenario.str (λ _ _, 0)
           Scenario.ts_unlabeled_successor Scenario.ba ["s0"; "s1"] 4
           ("s0", "q1") "s1").
  - apply ListStoreFacts.list_operands_well_formed; by_evaluation.
  - reflexivity.
  - intros s0 ->%list_elem_of_singleton. by vm_compute.
  - apply reachable_initial. split; [by_evaluation|].
    exists {[ "p" ]}, "q0". split_and!; [reflexivity|by_evaluation..].
  - by_evaluation.
  - reflexivity.
  - simpl. lia.
Defined.

(** The scenario with s0 left without label. *)
Lemma unlabeled_initial_state_raises_index_error_witness :
  ∃ σ, _ts_ba_sync_prod Scenario.str (λ _ _, 0) 0
         (PyFTS Scenario.ts_unlabeled_initial) (PyBA Scenario.ba)
       = Raise (IndexError "list index out of range") (Some σ) ∧
       queue σ = [] ∧ visited σ = [].
Proof.
  destruct (unlabeled_initial_state_raises_index_error Scenario.str
              (λ _ _, 0) Scenario.ts_unlabeled_initial Scenario.ba 0
              eq_refl) as [Hindex _].
  apply (Hindex (λ s0 _, wf_labels _ Scenario.ba ["s0"; "s1"]
    (ListStoreFacts.list_operands_well_formed ListStore.label_equal
       "ts" "ba" true ["s0"; "s1"] ["s0"]
       [("s1", {[ "ap" := ∅ ]})] [("s0", "s1", []); ("s1", "s0", [])]
       ["q0"; "q1"] ["q0"] ["q1"] Scenario.ba_edges
       ltac:(by_evaluation) ltac:(by_evaluation)
       ltac:(by_evaluation) ltac:(by_evaluation)) s0)
    "s0"); [by_evaluation|reflexivity].
Defined.

Lemma scenario_well_formed :
  well_formed_operands Scenario.ts Scenario.ba ["s0"; "s1"].
Proof. apply ListStoreFacts.list_operands_well_formed; by_evaluation. Qed.

(** The scenario needs at most four iterations. *)
Lemma construction_ends_within_bound_witness :
  out_of_fuel (_ts_ba_sync_prod Scenario.str (λ _ _, 0) 4
                 (PyFTS Scenario.ts) (PyBA Scenario.ba)) = false.
Proof.
  apply (construction_ends_within_bound Scenario.str (λ _ _, 0)
           Scenario.ts Scenario.ba ["s0"; "s1"] 4).
  - apply scenario_well_formed.
  - simpl. lia.
Defined.

(** The states of the scenario are labeled, so its product is returned
    and holds the reachable product states. *)
Lemma construction_returns_reachable_product_witness :
  ∃ product_ts persistent_states,
    _ts_ba_sync_prod Scenario.str (λ _ _, 0) 4
      (PyFTS Scenario.ts) (PyBA Scenario.ba)
    = Return product_ts persistent_states ∧
    NoDup (p_states product_ts) ∧
    (∀ y, y ∈ p_states product_ts ↔
          product_reachable Scenario.ts Scenario.ba y) ∧
    (∀ y, y ∈ p_initial product_ts ↔
          product_initial Scenario.ts Scenario.ba y) ∧
    (∀ y, y ∈ persistent_states ↔
          product_reachable Scenario.ts Scenario.ba y ∧
          y.2 ∈ ba_states_accepting Scenario.ba) ∧
    length (p_states product_ts) ≤
      length ["s0"; "s1"] * length (ba_states Scenario.ba).
Proof.
  assert (∀ s, s ∈ ["s0"; "s1"] → ¬ unlabeled Scenario.ts s) as Hlab.
  { intros s Hs. repeat apply elem_of_cons in Hs as [-> |Hs];
      [by vm_compute..|by apply elem_of_nil in Hs]. }
  apply (construction_returns_reachable_product Scenario.str (λ _ _, 0)
           Scenario.ts Scenario.ba ["s0"; "s1"] 4).
  - apply scenario_well_formed.
  - reflexivity.
  - intros s0 Hs0. apply Hlab.
    by eapply (wf_initial _ _ _ scenario_well_formed).
  - intros sq s' _ Hs'. apply Hlab.
    by eapply (wf_post _ _ _ scenario_well_formed).
  - simpl. lia.
Defined.

(** With guards read as satisfied by every valuation that contains them,
    the scenario has a second initial product state, (s0, q0): the product
    of the scenario rests on the store that looks labels up by equality. *)
Lemma scenario_product_subset_guards :
  ∃ product_ts,
    _ts_ba_sync_prod Scenario.str (λ _ _, 0) 5
      (PyFTS Scenario.ts) (PyBA Scenario.ba_subset_guards)
    = Return product_ts [("s0", "q1")] ∧
    p_initial product_ts = [("s0", "q1"); ("s0", "q0")].
Proof. eexists. split; vm_compute; reflexivity. Qed.

(* ================================================================== *)
(** * Facts on [dfa2nfa] *)
(* ================================================================== *)

Module ObjectsFacts.
Import Objects.
Section facts.
Context {St L : Type}.
Implicit Types (h : heap (St:=St) (L:=L)).

Lemma fresh_automaton h : automata h !! fresh (dom (automata h)) = None.
Proof. apply not_elem_of_dom, is_fresh. Qed.

Lemma fresh_transitions h :
  transitions_objects h !! fresh (dom (transitions_objects h)) = None.
Proof. apply not_elem_of_dom, is_fresh. Qed.

(** What [dfa2nfa] computes, on a heap that holds the automaton. *)
Lemma dfa2nfa_eq h dfa a t :
  automata h !! dfa = Some a →
  transitions_objects h !! transitions a = Some t →
  let nfa := fresh (dom (automata h)) in
  let t' := fresh (dom (transitions_objects h)) in
  dfa2nfa h dfa =
  Some (nfa,
        {| automata :=
             <[nfa := set_automaton_type "Non-Deterministic Finite Automaton"
                        (set_transitions t' a)]> (automata h);
           transitions_objects :=
             <[t' := set_deterministic false t]> (transitions_objects h) |}).
Proof.
  intros Ha Ht nfa t'. unfold dfa2nfa, copy.
  rewrite Ha. simpl. rewrite Ht. simpl.
  unfold store_deterministic. simpl.
  rewrite lookup_insert_eq. simpl. rewrite lookup_insert_eq. simpl.
  unfold store_automaton_type. simpl.
  rewrite lookup_insert_eq. simpl.
  by rewrite !insert_insert_eq.
Qed.

(** C6: on a heap that holds the DFA, [dfa2nfa] returns. Its result is a
    new automaton object with a [transitions] object of its own; name,
    states, initial and accepting states, alphabet and edges are those
    of the DFA; the determinism flag is cleared and the type is the one
    of an NFA; every object the heap held before, the DFA with its
    [transitions] object among them, is as it was. *)
Theorem dfa2nfa_independent_copy h dfa a :
  well_formed h →
  automata h !! dfa = Some a →
  ∃ nfa h' a' t,
    dfa2nfa h dfa = Some (nfa, h') ∧
    (* a new object *)
    nfa ≠ dfa ∧ automata h !! nfa = None ∧
    automata h' !! nfa = Some a' ∧
    transitions_objects h !! transitions a' = None ∧
    (* with the contents of the old one *)
    name a' = name a ∧
    states a' = states a ∧
    states_initial a' = states_initial a ∧
    states_accepting a' = states_accepting a ∧
    alphabet a' = alphabet a ∧
    is_atomic_proposition_based a' = is_atomic_proposition_based a ∧
    edges_of h' nfa = edges_of h dfa ∧
    edges_of h dfa = Some (edges t) ∧
    (* but for the flag and the type *)
    deterministic_of h' nfa = Some false ∧
    automaton_type a' = "Non-Deterministic Finite Automaton" ∧
    (* and every object of the heap is as it was *)
    (∀ l, l ≠ nfa → automata h' !! l = automata h !! l) ∧
    (∀ l, l ≠ transitions a' →
       transitions_objects h' !! l = transitions_objects h !! l) ∧
    automata h' !! dfa = Some a ∧
    transitions_objects h' !! transitions a = Some t ∧
    well_formed h'.
Proof.
  intros [Hobj Hshare] Ha.
  destruct (Hobj _ _ Ha) as [t Ht].
  pose proof (fresh_automaton h) as Hfa.
  pose proof (fresh_transitions h) as Hft.
  assert (fresh (dom (automata h)) ≠ dfa) as Hne by congruence.
  assert (transitions a ≠ fresh (dom (transitions_objects h))) as Hnet
    by congruence.
  eexists _, _,
    (set_automaton_type "Non-Deterministic Finite Automaton"
       (set_transitions (fresh (dom (transitions_objects h))) a)), t.
  split; [by apply dfa2nfa_eq|].
  unfold edges_of, deterministic_of. simpl.
  rewrite !lookup_insert_eq. simpl. rewrite !lookup_insert_eq. simpl.
  rewrite Ha. simpl. rewrite Ht. simpl.
  split_and!; try done.
  - intros l Hl. by rewrite lookup_insert_ne.
  - intros l Hl. by rewrite lookup_insert_ne.
  - by rewrite lookup_insert_ne.
  - by rewrite lookup_insert_ne.
  - split; simpl.
    + intros l b [[<- <-]|[Hl Hb]]%lookup_insert_Some; simpl.
      * rewrite lookup_insert_eq. eauto.
      * destruct (Hobj _ _ Hb) as [tb Htb].
        rewrite lookup_insert_ne by congruence. eauto.
    + intros l1 l2 b1 b2
        [[<- <-]|[Hl1 Hb1]]%lookup_insert_Some
        [[<- <-]|[Hl2 Hb2]]%lookup_insert_Some; simpl; try done.
      * intros Heq. destruct (Hobj _ _ Hb2) as [tb Htb]. congruence.
      * intros Heq. destruct (Hobj _ _ Hb1) as [tb Htb]. congruence.
      * eauto.
Qed.
End facts.

Lemma one_dfa_heap_well_formed : well_formed one_dfa_heap.
Proof.
  split; unfold one_dfa_heap; simpl.
  - intros l a [<- <-]%lookup_singleton_Some. simpl.
    rewrite lookup_singleton_eq. eauto.
  - by intros l1 l2 a1 a2 [<- _]%lookup_singleton_Some
                          [<- _]%lookup_singleton_Some.
Qed.

(** The copy of the DFA of [one_dfa_heap]. *)
Lemma dfa2nfa_independent_copy_witness :
  ∃ nfa h' a' t,
    dfa2nfa one_dfa_heap 1%positive = Some (nfa, h') ∧
    nfa ≠ 1%positive ∧ automata one_dfa_heap !! nfa = None ∧
    automata h' !! nfa = Some a' ∧
    transitions_objects one_dfa_heap !! transitions a' = None ∧
    name a' = name one_dfa ∧
    states a' = states one_dfa ∧
    states_initial a' = states_initial one_dfa ∧
    states_accepting a' = states_accepting one_dfa ∧
    alphabet a' = alphabet one_dfa ∧
    is_atomic_proposition_based a' = is_atomic_proposition_based one_dfa ∧
    edges_of h' nfa = edges_of one_dfa_heap 1%positive ∧
    edges_of one_dfa_heap 1%positive = Some (edges t) ∧
    deterministic_of h' nfa = Some false ∧
    automaton_type a' = "Non-Deterministic Finite Automaton" ∧
    (∀ l, l ≠ nfa → automata h' !! l = automata one_dfa_heap !! l) ∧
    (∀ l, l ≠ transitions a' →
       transitions_objects h' !! l = transitions_objects one_dfa_heap !! l) ∧
    automata h' !! 1%positive = Some one_dfa ∧
    transitions_objects h' !! transitions one_dfa = Some t ∧
    well_formed h'.
Proof.
  apply (dfa2nfa_independent_copy one_dfa_heap 1%positive one_dfa).
  - apply one_dfa_heap_well_formed.
  - reflexivity.
Defined.
End ObjectsFacts.

(* ================================================================== *)
(** * Facts on the acceptance check *)
(* ================================================================== *)

Module BuchiFacts.
Import Buchi.

Lemma is_accepted_never_accepts {Q V : Type}
    (self : BuchiAutomaton (Q:=Q) (V:=V)) (prefix suffix : list V) :
  truthy (is_accepted self prefix suffix) = false.
Proof. reflexivity. Qed.

Lemma loop_ba_accepts : accepts loop_ba [] [{[ "a" ]}].
Proof.
  exists (λ _, "q0"). split.
  - split; [by left|]. intros i.
    exists {[ "a" ]}, ("q0", "q0", {[ "in_alphabet" := {[ "a" ]} ]}).
    split_and!; [|by left|done].
    unfold letter. case_decide; [simpl in *; lia|].
    change (length [_]) with 1. by rewrite Nat.mod_1_r.
  - intros n. exists n. split; [done|by left].
Qed.

(** C4 does not hold of the code: on the word a^omega of the one-state automaton that loops on
    a in its accepting state: a run visits the accepting state at every
    step, and the call returns [None], which is not a truth. *)
Theorem is_accepted_misses_accepted_word :
  accepts loop_ba [] [{[ "a" ]}] ∧
  is_accepted loop_ba [] [{[ "a" ]}] = PyNone ∧
  truthy (is_accepted loop_ba [] [{[ "a" ]}]) = false.
Proof. split_and!; [apply loop_ba_accepts|done..]. Qed.
End BuchiFacts.

(* ================================================================== *)
(** * Facts on the Rabin pairs *)
(* ================================================================== *)

Module RabinPairsFacts.
Import RabinPairs.
Section facts.
Context {St : Type} `{Countable St}.
Implicit Types (self : RabinPairs (St:=St)) (good bad : list St).
Implicit Types (U G B : gset St).

Lemma SubSet_add_from_inr U G xs G' :
  SubSet_add_from U G xs = inr G' ↔
  Forall (λ x, x ∈ U) xs ∧ G' = G ∪ list_to_set xs.
Proof.
  unfold SubSet_add_from. case_decide; split; try done.
  - intros [= <-]. done.
  - intros [_ ->]. done.
  - intros [??]. done.
Qed.

Lemma SubSet_add_from_inl U G xs e :
  SubSet_add_from U G xs = inl e ↔
  ¬ Forall (λ x, x ∈ U) xs ∧ e = InvalidState.
Proof.
  unfold SubSet_add_from. case_decide; split; try done.
  - intros [??]. done.
  - intros [= <-]. done.
  - intros [_ ->]. done.
Qed.

Lemma subseteq_add_from U G xs :
  G ⊆ U → Forall (λ x, x ∈ U) xs → G ∪ list_to_set xs ⊆ U.
Proof.
  intros HG Hxs. rewrite Forall_forall in Hxs. apply elem_of_subseteq.
  intros x [?|Hx%elem_of_list_to_set]%elem_of_union; [by apply HG|auto].
Qed.

(** [SubSet(self._states)] with [|= elements]. *)
Lemma new_SubSet_valid self xs :
  Forall (λ x, x ∈ _states self) xs →
  new_SubSet xs self = (inr (list_to_set xs), self).
Proof.
  intros Hxs. unfold new_SubSet, bind, gets, lift, SubSet_add_from.
  rewrite decide_True by done. by rewrite (left_id_L ∅ (∪)).
Qed.

Lemma new_SubSet_invalid self xs :
  ¬ Forall (λ x, x ∈ _states self) xs →
  new_SubSet xs self = (inl InvalidState, self).
Proof.
  intros Hxs. unfold new_SubSet, bind, gets, lift, SubSet_add_from.
  by rewrite decide_False.
Qed.

(** [list.remove] *)
Lemma list_remove_None {A} `{EqDecision A} (x : A) (l : list A) :
  list_remove x l = None ↔ x ∉ l.
Proof.
  induction l as [|y l IH]; simpl.
  - split; [intros _; apply not_elem_of_nil|done].
  - rewrite not_elem_of_cons. case_decide as Hy.
    + split; [done|]. intros [? _]. done.
    + rewrite fmap_None, IH. split; [by intros ?; split|by intros [_ ?]].
Qed.

Lemma list_remove_Some {A} `{EqDecision A} (x : A) (l l' : list A) :
  list_remove x l = Some l' ↔
  ∃ i, l !! i = Some x ∧ (∀ j, j < i → l !! j ≠ Some x) ∧ l' = delete i l.
Proof.
  revert l'. induction l as [|y l IH]; intros l'; simpl.
  - split; [done|]. intros (i & Hi & _). done.
  - case_decide as Hy.
    + subst y. split.
      * intros [= <-]. exists 0. split_and!; [done| |done]. intros j ?. lia.
      * intros (i & Hi & Hfirst & ->). destruct i as [|i]; [done|].
        destruct (Hfirst 0); [lia|done].
    + rewrite fmap_Some. split.
      * intros (l'' & (i & Hi & Hfirst & ->)%IH & ->).
        exists (Datatypes.S i). split_and!; [done| |done].
        intros [|j] Hj; simpl; [congruence|]. apply Hfirst. lia.
      * intros (i & Hi & Hfirst & ->). destruct i as [|i]; simpl in *.
        { congruence. }
        exists (delete i l). split; [|done]. apply IH.
        exists i. split_and!; [done| |done].
        intros j Hj. apply (Hfirst (Datatypes.S j)). lia.
Qed.

(** [l[i]] *)
Lemma py_index_Some i n k : py_index i n = Some k → k < n.
Proof. unfold py_index. repeat case_decide; intros [= <-]; lia. Qed.

Lemma py_index_None i n :
  py_index i n = None ↔ (i < - Z.of_nat n ∨ Z.of_nat n ≤ i)%Z.
Proof. unfold py_index. repeat case_decide; split; try done; lia. Qed.

Lemma getitem_inr self i k p σ :
  getitem i self = (inr (k, p), σ) ↔
  σ = self ∧ py_index i (length (_pairs self)) = Some k ∧
  _pairs self !! k = Some p.
Proof.
  unfold getitem, bind, gets, raise, ret.
  destruct (py_index i _) as [k'|] eqn:Hi; [|split; [done|by intros (_&?&_)]].
  destruct (_pairs self !! k') as [p'|] eqn:Hk.
  - split; [by intros [= <- <- <-]|]. intros (-> & [= <-] & Hp). congruence.
  - split; [done|]. intros (-> & [= <-] & Hp). congruence.
Qed.

Lemma getitem_inl self i e σ :
  getitem i self = (inl e, σ) ↔
  σ = self ∧ py_index i (length (_pairs self)) = None ∧
  e = IndexError "list index out of range".
Proof.
  unfold getitem, bind, gets, raise, ret.
  destruct (py_index i _) as [k'|] eqn:Hi.
  - pose proof (py_index_Some _ _ _ Hi) as Hlt.
    apply lookup_lt_is_Some_2 in Hlt as [p ->].
    split; [done|by intros (_&?&_)].
  - split; [by intros [= <- <-]|by intros (-> & _ & ->)].
Qed.

(** What the three calls compute. *)
Lemma add_eq self good bad :
  add good bad self =
  if decide (Forall (λ x, x ∈ _states self) good) then
    if decide (Forall (λ x, x ∈ _states self) bad) then
      (inr tt, on_pairs (λ l, l ++ [(list_to_set good, list_to_set bad)]) self)
    else (inl InvalidState, self)
  else (inl InvalidState, self).
Proof.
  unfold add. unfold bind at 1.
  case_decide as Hg; [|by rewrite new_SubSet_invalid].
  rewrite new_SubSet_valid by done. unfold bind at 1.
  case_decide as Hb; [|by rewrite new_SubSet_invalid].
  by rewrite new_SubSet_valid.
Qed.

Lemma remove_eq self good bad :
  remove good bad self =
  if decide (Forall (λ x, x ∈ _states self) good) then
    if decide (Forall (λ x, x ∈ _states self) bad) then
      match list_remove (list_to_set good, list_to_set bad) (_pairs self) with
      | None => (inl PairNotFound, self)
      | Some pairs' => (inr tt, on_pairs (λ _, pairs') self)
      end
    else (inl InvalidState, self)
  else (inl InvalidState, self).
Proof.
  unfold remove. unfold bind at 1.
  case_decide as Hg; [|by rewrite new_SubSet_invalid].
  rewrite new_SubSet_valid by done. unfold bind at 1.
  case_decide as Hb; [|by rewrite new_SubSet_invalid].
  rewrite new_SubSet_valid by done. unfold bind, gets.
  by destruct (list_remove _ _).
Qed.

Lemma add_states_eq self i good bad :
  add_states i good bad self =
  match py_index i (length (_pairs self)) with
  | None => (inl NoSuchPair, self)
  | Some k =>
      match _pairs self !! k with
      | None => (inl NoSuchPair, self)
      | Some (G, B) =>
          if decide (Forall (λ x, x ∈ _states self) good) then
            if decide (Forall (λ x, x ∈ _states self) bad) then
              (inr tt,
               on_pairs (λ l, <[k := (G ∪ list_to_set good,
                                      B ∪ list_to_set bad)]> l) self)
            else
              (inl InvalidState,
               on_pairs (λ l, <[k := (G ∪ list_to_set good, B)]> l) self)
          else (inl InvalidState, self)
      end
  end.
Proof.
  unfold add_states, except_IndexError. unfold bind at 1.
  destruct (getitem i self) as [[e|[k [G B]]] σ] eqn:Hget.
  { apply getitem_inl in Hget as (-> & -> & ->). done. }
  apply getitem_inr in Hget as (-> & Hk & Hp). rewrite Hk, Hp.
  unfold bind at 1. unfold gets at 1. unfold bind at 1. unfold lift at 1.
  simpl. unfold SubSet_add_from at 1.
  case_decide as Hg; [|done].
  unfold bind at 1. unfold modify at 1. unfold bind at 1.
  pose proof (py_index_Some _ _ _ Hk) as Hlt.
  match goal with |- context [getitem i ?σ] =>
    assert (getitem i σ = (inr (k, (G ∪ list_to_set good, B)), σ)) as ->
  end.
  { apply getitem_inr. simpl. rewrite length_insert.
    split_and!; [done..|]. by apply list_lookup_insert_eq. }
  unfold bind, lift, modify. simpl. unfold SubSet_add_from.
  case_decide as Hb; [|done].
  unfold on_pairs. simpl. by rewrite list_insert_insert_eq.
Qed.

Lemma pairs_within_states_run_call self c :
  pairs_within_states self →
  pairs_within_states (run_call c self).2 ∧
  _states (run_call c self).2 = _states self.
Proof.
  intros Hwf. destruct c as [good bad|good bad|i good bad]; simpl.
  - rewrite add_eq.
    case_decide as Hg; [|done]. case_decide as Hb; [|done]. simpl.
    split; [|done]. intros p [Hp| ->%list_elem_of_singleton]%elem_of_app.
    + by apply Hwf.
    + rewrite Forall_forall in Hg, Hb. simpl.
      split; apply elem_of_subseteq; intros x Hx%elem_of_list_to_set; auto.
  - rewrite remove_eq. repeat case_decide; simpl; try done.
    destruct (list_remove _ _) as [l'|] eqn:Hrm; simpl; [|done].
    split; [|done]. intros p Hp. apply Hwf.
    apply list_remove_Some in Hrm as (k & _ & _ & ->).
    apply list_elem_of_lookup in Hp as [j Hj].
    simpl in Hj. destruct (decide (j < k)).
    + rewrite list_lookup_delete_lt in Hj by done.
      by eapply list_elem_of_lookup_2.
    + rewrite list_lookup_delete_ge in Hj by lia.
      by eapply list_elem_of_lookup_2.
  - rewrite add_states_eq.
    destruct (py_index _ _) as [k|]; [|done].
    destruct (_pairs self !! k) as [[G B]|] eqn:Hk; [|done].
    assert ((G, B) ∈ _pairs self) as [HG HB]%Hwf
      by by eapply list_elem_of_lookup_2.
    simpl in HG, HB.
    repeat case_decide; simpl; try done; (split; [|done]);
      intros p Hp; apply list_elem_of_lookup in Hp as [j Hj]; simpl in Hj;
      (destruct (decide (k = j)) as [->|Hne];
       [ rewrite list_lookup_insert_eq in Hj
           by (by eapply lookup_lt_Some);
         injection Hj as <-; simpl;
         split; try done; by apply subseteq_add_from
       | rewrite list_lookup_insert_ne in Hj by done;
         apply Hwf; by eapply list_elem_of_lookup_2 ]).
Qed.

Lemma pairs_within_states_run_calls self cs :
  pairs_within_states self →
  pairs_within_states (run_calls cs self) ∧
  _states (run_calls cs self) = _states self.
Proof.
  revert self. induction cs as [|c cs IH]; intros self Hwf; simpl; [done|].
  destruct (pairs_within_states_run_call self c Hwf) as [Hwf' Hst].
  destruct (IH _ Hwf') as [? ->]. done.
Qed.

(** C7: the good and bad sets stay within the states the object is bound
    to, whatever calls of [add], [remove] and [add_states] are made on it
    and however they end; a call of [add] with an element that is not
    such a state raises InvalidState and leaves the pairs as they were. *)
Theorem pairs_stay_within_states U (cs : list call) :
  let self := run_calls cs (__init__ U) in
  _states self = U ∧
  pairs_within_states self ∧
  ∀ good bad,
    ¬ Forall (λ x, x ∈ U) (good ++ bad) →
    add good bad self = (inl InvalidState, self).
Proof.
  intros self. subst self.
  destruct (pairs_within_states_run_calls (__init__ U) cs) as [Hwf Hst].
  { intros p Hp. by apply elem_of_nil in Hp. }
  split_and!; [done..|].
  intros good bad Hbad. rewrite add_eq, Hst. simpl.
  repeat case_decide; try done.
  destruct Hbad. by apply Forall_app.
Qed.

(** C8, as amended: [remove] looks the pair up by the value of its two
    sets. Elements outside the states raise InvalidState; otherwise the
    call raises PairNotFound exactly when no pair has these values, and
    else deletes the first such pair, which moves every later pair one
    index down. *)
Theorem remove_by_value self good bad :
  let p := (list_to_set good, list_to_set bad) in
  let r := remove good bad self in
  (¬ Forall (λ x, x ∈ _states self) (good ++ bad) →
     r = (inl InvalidState, self)) ∧
  (Forall (λ x, x ∈ _states self) (good ++ bad) →
     (r.1 = inl PairNotFound ↔ p ∉ _pairs self) ∧
     (p ∉ _pairs self → r.2 = self) ∧
     (∀ i, _pairs self !! i = Some p →
           (∀ j, j < i → _pairs self !! j ≠ Some p) →
        r.1 = inr tt ∧
        _states r.2 = _states self ∧
        _pairs r.2 = delete i (_pairs self) ∧
        (∀ j, j < i → _pairs r.2 !! j = _pairs self !! j) ∧
        (∀ j, i ≤ j → _pairs r.2 !! j = _pairs self !! Datatypes.S j))).
Proof.
  intros p r. subst r. rewrite remove_eq. fold p. split.
  - rewrite Forall_app. intros Hbad. repeat case_decide; try done.
    destruct Hbad. done.
  - intros [Hg Hb]%Forall_app. rewrite !decide_True by done.
    destruct (list_remove p (_pairs self)) as [l'|] eqn:Hrm.
    + apply list_remove_Some in Hrm as (k & Hk & Hfirst & ->).
      assert (p ∈ _pairs self) as Hin by by eapply list_elem_of_lookup_2.
      split_and!; [done|done|].
      intros i Hi Hfirst'.
      assert (i = k) as ->.
      { destruct (Nat.lt_trichotomy i k) as [?|[?|?]]; [|done|].
        - by destruct (Hfirst i).
        - by destruct (Hfirst' k). }
      simpl. split_and!; [done..| |].
      * intros j Hj. by apply list_lookup_delete_lt.
      * intros j Hj. by apply list_lookup_delete_ge.
    + apply list_remove_None in Hrm. split_and!; [done|done|].
      intros i Hi. destruct Hrm. by eapply list_elem_of_lookup_2.
Qed.

(** C9: [add_states] extends the two sets of the pair at the index. For
    an index within the list and elements that are states, the call
    returns, the pair at the index has become (G ∪ good, B ∪ bad), and
    the other pairs and the states are left alone. No set of any pair
    loses a member, however the call ends. The call raises the exception
    for a missing pair exactly when the index is outside the list, which
    for a Python list of n pairs means below -n or from n on. Within the
    list it returns exactly when all the elements given are states, and
    raises InvalidState otherwise: before any change for an element of
    [good], and with the good set already extended for an element of
    [bad]. *)
Theorem add_states_grows_in_range self (pair_index : Z) good bad :
  let r := add_states pair_index good bad self in
  let n := length (_pairs self) in
  length (_pairs r.2) = n ∧
  (∀ j G B, _pairs self !! j = Some (G, B) →
     ∃ G' B', _pairs r.2 !! j = Some (G', B') ∧ G ⊆ G' ∧ B ⊆ B') ∧
  (r.1 = inl NoSuchPair ↔ py_index pair_index n = None) ∧
  (py_index pair_index n = None ↔
     (pair_index < - Z.of_nat n ∨ Z.of_nat n ≤ pair_index)%Z) ∧
  (r.1 = inr tt →
     ∃ k G B, py_index pair_index n = Some k ∧
       _pairs self !! k = Some (G, B) ∧
       _pairs r.2 =
         <[k := (G ∪ list_to_set good, B ∪ list_to_set bad)]> (_pairs self)) ∧
  (r.1 = inr tt ↔
     is_Some (py_index pair_index n) ∧
     Forall (λ x, x ∈ _states self) (good ++ bad)) ∧
  (∀ k, py_index pair_index n = Some k →
     ∃ G B, _pairs self !! k = Some (G, B) ∧
       (Forall (λ x, x ∈ _states self) good →
        Forall (λ x, x ∈ _states self) bad →
          r = (inr tt,
               on_pairs (λ l, <[k := (G ∪ list_to_set good,
                                      B ∪ list_to_set bad)]> l) self) ∧
          _pairs r.2 !! k =
            Some (G ∪ list_to_set good, B ∪ list_to_set bad) ∧
          (∀ x, x ∈ good → x ∈ G ∪ list_to_set good) ∧
          (∀ x, x ∈ bad → x ∈ B ∪ list_to_set bad) ∧
          (∀ j, j ≠ k → _pairs r.2 !! j = _pairs self !! j) ∧
          _states r.2 = _states self) ∧
       (Forall (λ x, x ∈ _states self) good →
        ¬ Forall (λ x, x ∈ _states self) bad →
          r = (inl InvalidState,
               on_pairs (λ l, <[k := (G ∪ list_to_set good, B)]> l) self)) ∧
       (¬ Forall (λ x, x ∈ _states self) good →
          r = (inl InvalidState, self))).
Proof.
  intros r n. subst r n. rewrite add_states_eq.
  split_and!; [| | |apply py_index_None| | |].
  - destruct (py_index _ _) as [k|]; [|done].
    destruct (_pairs self !! k) as [[G B]|]; [|done].
    repeat case_decide; simpl; by rewrite ?length_insert.
  - intros j G B Hj.
    destruct (py_index _ _) as [k|]; [|by eauto].
    destruct (_pairs self !! k) as [[G0 B0]|] eqn:Hk; [|by eauto].
    repeat case_decide; simpl; try (by eauto);
      (destruct (decide (k = j)) as [->|Hne];
       [ rewrite list_lookup_insert_eq by (by eapply lookup_lt_Some);
         assert (G0 = G ∧ B0 = B) as [-> ->] by (split; congruence);
         eexists _, _; split; [done|];
         split; try done; apply union_subseteq_l
       | rewrite list_lookup_insert_ne by done; eauto ]).
  - destruct (py_index _ _) as [k|] eqn:Hi; [|done].
    pose proof (py_index_Some _ _ _ Hi) as Hlt.
    apply lookup_lt_is_Some_2 in Hlt as [[G B] ->].
    repeat case_decide; simpl; split; done.
  - destruct (py_index _ _) as [k|] eqn:Hi; [|done].
    destruct (_pairs self !! k) as [[G B]|] eqn:Hk; [|done].
    repeat case_decide; simpl; try done. intros _. by exists k, G, B.
  - rewrite Forall_app.
    destruct (py_index _ _) as [k|] eqn:Hi.
    + pose proof (py_index_Some _ _ _ Hi) as Hlt.
      apply lookup_lt_is_Some_2 in Hlt as [[G B] ->].
      repeat case_decide; simpl; split; try done.
      * intros (_ & _ & ?). done.
      * intros (_ & ? & _). done.
    + split; [done|]. by intros [[? [=]] _].
  - intros k Hk. rewrite Hk.
    pose proof (py_index_Some _ _ _ Hk) as Hlt.
    destruct (lookup_lt_is_Some_2 _ _ Hlt) as [[G B] Hp]. rewrite Hp.
    exists G, B. split; [done|]. split_and!.
    + intros Hg Hb. rewrite !decide_True by done. simpl.
      split_and!; [done| | | | |done].
      * by apply list_lookup_insert_eq.
      * intros x Hx. apply elem_of_union. right. by apply elem_of_list_to_set.
      * intros x Hx. apply elem_of_union. right. by apply elem_of_list_to_set.
      * intros j Hj. by apply list_lookup_insert_ne.
    + intros Hg Hb. by rewrite decide_True, decide_False.
    + intros Hg. by rewrite decide_False.
Qed.

End facts.

(** A set of two pairs over the states 1, 2 and 3. *)
Lemma pairs_stay_within_states_witness :
  let self := run_calls [Add [1] [2]; AddStates (-1) [3] []; Remove [2] []]
                (__init__ ({[1; 2; 3]} : gset nat)) in
  pairs_within_states self ∧
  add [1; 4] [2] self = (inl InvalidState, self).
Proof.
  intros self.
  destruct (pairs_stay_within_states ({[1; 2; 3]} : gset nat)
    [Add [1] [2]; AddStates (-1) [3] []; Remove [2] []]) as (_ & Hwf & Hadd).
  split; [exact Hwf|]. apply Hadd.
  intros Hall. apply Forall_app in Hall as [Hall _].
  apply Forall_cons in Hall as [_ Hall].
  apply Forall_cons in Hall as [H4 _].
  rewrite !elem_of_union, !elem_of_singleton in H4. lia.
Defined.

(** C8, as it was stated, fails: no pair has the good set {9}, and the
    call of [remove] does not raise PairNotFound but InvalidState, since 9
    is not a state. *)
Lemma remove_invalid_state_not_pair_not_found :
  let self := __init__ ({[1; 2; 3]} : gset nat) in
  ((list_to_set [9], list_to_set []) ∉ _pairs self) ∧
  (remove [9] [] self).1 = inl InvalidState ∧
  InvalidState ≠ PairNotFound.
Proof.
  intros self. split_and!; [apply not_elem_of_nil| |done].
  rewrite remove_eq. rewrite decide_False; [done|].
  intros [H9 _]%Forall_cons. simpl in H9.
  rewrite !elem_of_union, !elem_of_singleton in H9. lia.
Qed.

Lemma states_123 (xs : list nat) :
  forallb (λ x, bool_decide (1 ≤ x ≤ 3)) xs = true →
  Forall (λ x, x ∈ ({[1; 2; 3]} : gset nat)) xs.
Proof.
  intros Hxs. apply Forall_forall. intros x Hx.
  rewrite forallb_forall in Hxs. apply list_elem_of_In, Hxs in Hx.
  apply bool_decide_eq_true_1 in Hx.
  rewrite !elem_of_union, !elem_of_singleton. lia.
Qed.

(** Removing the first of two pairs: the second one becomes pair 0. *)
Lemma remove_by_value_witness :
  let self := {| _states := ({[1; 2; 3]} : gset nat);
                 _pairs := [({[1]}, {[2]}); ({[3]}, ∅)] |} in
  (remove [1] [2] self).1 = inr tt ∧
  _pairs (remove [1] [2] self).2 !! 0 = Some ({[3]}, ∅).
Proof.
  intros self.
  destruct (remove_by_value self [1] [2]) as [_ Hrm].
  specialize (Hrm (states_123 [1; 2] eq_refl)) as (_ & _ & Hrm).
  destruct (Hrm 0) as (Hr & _ & _ & _ & Hshift).
  - reflexivity.
  - intros j Hj. lia.
  - split; [exact Hr|]. by rewrite (Hshift 0).
Defined.

(** Index -1 is the last of two pairs: the call returns, and the sets of
    that pair come to hold the elements given beside those they had. *)
Lemma add_states_grows_in_range_witness :
  let self := {| _states := ({[1; 2; 3]} : gset nat);
                 _pairs := [({[1]}, {[2]}); ({[3]}, ∅)] |} in
  let r := add_states (-1) [1] [2] self in
  r.1 = inr tt ∧
  _pairs r.2 !! 0 = Some ({[1]}, {[2]}) ∧
  ∃ G' B', _pairs r.2 !! 1 = Some (G', B') ∧
           1 ∈ G' ∧ 3 ∈ G' ∧ 2 ∈ B'.
Proof.
  intros self r.
  destruct (add_states_grows_in_range self (-1) [1] [2])
    as (_ & _ & _ & _ & _ & _ & Hin).
  destruct (Hin 1 eq_refl) as (G & B & HGB & Hret & _).
  injection HGB as <- <-.
  destruct (Hret (states_123 [1] eq_refl) (states_123 [2] eq_refl))
    as (Hr & Hk & Hg & Hb & Hother & _).
  split_and!.
  - subst r. by rewrite Hr.
  - subst r. by rewrite (Hother 0).
  - exists ({[3]} ∪ list_to_set [1]), (∅ ∪ list_to_set [2]).
    split_and!.
    + exact Hk.
    + apply Hg. by left.
    + apply elem_of_union. left. by apply elem_of_singleton.
    + apply Hb. by left.
Defined.

End RabinPairsFacts.
